(** * make_elements.py: the formspec element-table generator

    A shallow embedding of [make_elements.py] (the script that reads the
    formspec section of [lua_api.txt] and builds the table of accepted
    parameter shapes per element) together with the properties of its
    specification.

    Conventions of the embedding.
    - A Python [str] is a [string]; its characters are the code points below
      256, and [lower] and the white space of [strip] follow Python on those.
    - A Python exception is a value of [exn]; a computation that may raise is
      in the [result] monad.  A generator is the list of what it yields.
    - Python lists that the program mutates in place are threaded explicitly
      (the hooks run in the [gen] monad, whose state is the [params] list). *)

From Equations Require Import Equations.
From stdpp Require Import gmap strings list sorting.
From Stdlib Require Import Ascii NArith.

Set Default Proof Using "Type".

(** ** Python strings *)

Module Str.

(** [str.isspace] on one character (code points below 256). *)
Definition isspace (c : ascii) : bool :=
  match c with
  | "009" | "010" | "011" | "012" | "013"
  | "028" | "029" | "030" | "031" | " " | "133" | "160" => true
  | _ => false
  end%char.

(** [str.lower] on one character: [A-Z] and the Latin-1 capitals. *)
Definition lower_char (c : ascii) : ascii :=
  let n := N_of_ascii c in
  if ((65 <=? n) && (n <=? 90) ||
      (192 <=? n) && (n <=? 222) && negb (n =? 215))%N
  then ascii_of_N (n + 32) else c.

Fixpoint map (f : ascii → ascii) (s : string) : string :=
  match s with
  | "" => ""
  | String c s' => String (f c) (map f s')
  end.

(** [s.lower()] *)
Definition lower (s : string) : string := map lower_char s.

(** [s.replace(a, b)] for one-character [a] and [b]. *)
Definition replace_char (a b : ascii) (s : string) : string :=
  map (λ c, if decide (c = a) then b else c) s.

(** [s[n:]] and [s[:n]] for [n >= 0]. *)
Fixpoint drop (n : nat) (s : string) : string :=
  match n, s with
  | S n', String _ s' => drop n' s'
  | _, _ => s
  end.

Fixpoint take (n : nat) (s : string) : string :=
  match n, s with
  | S n', String c s' => String c (take n' s')
  | _, _ => ""
  end.

(** [s[:-k]] for [k > 0]: Python clamps the bound at the start. *)
Definition drop_last (k : nat) (s : string) : string :=
  take (String.length s - k) s.

(** [s[i:-k]] for [i >= 0] and [k > 0]. *)
Definition slice (i k : nat) (s : string) : string :=
  drop i (drop_last k s).

(** [s.startswith(p)] *)
Fixpoint startswith (p s : string) : bool :=
  match p, s with
  | "", _ => true
  | String a p', String b s' =>
      if decide (a = b) then startswith p' s' else false
  | String _ _, "" => false
  end.

(** [s.endswith(p)] *)
Definition endswith (p s : string) : bool :=
  if decide (String.length p ≤ String.length s)
  then bool_decide (drop (String.length s - String.length p) s = p)
  else false.

(** [s.partition(sep)] without the separator: the text before and after
    the first occurrence of [sep], if there is one. *)
Fixpoint partition (sep s : string) : option (string * string) :=
  if startswith sep s then Some ("", drop (String.length sep) s)
  else match s with
       | "" => None
       | String c s' =>
           match partition sep s' with
           | Some (a, b) => Some (String c a, b)
           | None => None
           end
       end.

(** [s.rpartition(sep)] without the separator: split at the last
    occurrence. *)
Fixpoint rpartition (sep s : string) : option (string * string) :=
  match s with
  | "" => if startswith sep s then Some ("", "") else None
  | String c s' =>
      match rpartition sep s' with
      | Some (a, b) => Some (String c a, b)
      | None =>
          if startswith sep s then Some ("", drop (String.length sep) s)
          else None
      end
  end.

(** [sub in s] *)
Definition contains (sub s : string) : bool :=
  bool_decide (is_Some (partition sub s)).

(** [s.split(sep, 1)] *)
Definition split1 (sep s : string) : list string :=
  match partition sep s with
  | Some (a, b) => [a; b]
  | None => [s]
  end.

(** [s.rsplit(sep, 1)] *)
Definition rsplit1 (sep s : string) : list string :=
  match rpartition sep s with
  | Some (a, b) => [a; b]
  | None => [s]
  end.

Lemma drop_length n s : String.length (drop n s) ≤ String.length s.
Proof.
  revert s; induction n as [|n IH]; intros [|c s]; simpl; try lia.
  specialize (IH s); lia.
Qed.

Lemma partition_shorter sep s a b :
  sep ≠ "" → partition sep s = Some (a, b) →
  String.length b < String.length s.
Proof.
  intros Hsep. revert a b.
  induction s as [|c s IH]; intros a b; simpl.
  - destruct sep; [done|]. simpl. discriminate.
  - destruct (startswith sep (String c s)) eqn:Hs.
    + intros [= <- <-]. destruct sep as [|d sep]; [done|]. simpl.
      pose proof (drop_length (String.length sep) s). lia.
    + destruct (partition sep s) as [[a' b']|] eqn:Hp; [|done].
      intros [= <- <-]. specialize (IH _ _ eq_refl). lia.
Qed.

Definition inspect {A} (a : A) : {b | a = b} := exist _ a eq_refl.

(** [s.split(sep)]: cut at every occurrence of [sep], left to right.
    Python raises [ValueError] on an empty separator; every call of the
    program passes a literal, non-empty one, and the model returns [[s]]
    for the empty one. *)
Equations? split (sep s : string) : list string
  by wf (String.length s) lt :=
  split sep s
    with inspect (if decide (sep = "") then None else partition sep s) := {
    | @exist (Some (a, b)) H => a :: split sep b
    | @exist None _ => [s] }.
Proof. case_decide; [done|]. by eapply partition_shorter. Qed.

(** [s.lstrip(..)], [s.rstrip(..)] and [s.strip(..)], the characters to
    remove given as a predicate. *)
Fixpoint lstrip_by (f : ascii → bool) (s : string) : string :=
  match s with
  | "" => ""
  | String c s' => if f c then lstrip_by f s' else s
  end.

Fixpoint rstrip_by (f : ascii → bool) (s : string) : string :=
  match s with
  | "" => ""
  | String c s' =>
      match rstrip_by f s' with
      | "" => if f c then "" else String c ""
      | r => String c r
      end
  end.

Definition strip_by (f : ascii → bool) (s : string) : string :=
  rstrip_by f (lstrip_by f s).

(** [s.strip()] *)
Definition strip (s : string) : string := strip_by isspace s.

(** Membership of a character in the argument of [strip(chars)]. *)
Fixpoint mem (c : ascii) (chars : string) : bool :=
  match chars with
  | "" => false
  | String d chars' => if decide (c = d) then true else mem c chars'
  end.

(** [s.strip(chars)] and [s.rstrip(chars)] *)
Definition strip_chars (chars s : string) : string :=
  strip_by (λ c, mem c chars) s.
Definition rstrip_chars (chars s : string) : string :=
  rstrip_by (λ c, mem c chars) s.

End Str.

(** ** Exceptions *)

(** The exceptions the program can raise; an [AssertionError] carries the
    line of the [assert] statement that failed. *)
Inductive exn :=
  | AssertionError (line : nat)
  | AttributeError
  | IndexError
  | ValueError.

Inductive result (A : Type) :=
  | Ok (a : A)
  | Raise (e : exn).
Arguments Ok {A} a.
Arguments Raise {A} e.

#[global] Instance exn_eq_dec : EqDecision exn.
Proof. solve_decision. Defined.

#[global] Instance result_ret : MRet result := @Ok.
#[global] Instance result_bind : MBind result := λ A B f m,
  match m with
  | Ok a => f a
  | Raise e => Raise e
  end.
#[global] Instance result_fmap : FMap result := λ A B f m,
  match m with
  | Ok a => Ok (f a)
  | Raise e => Raise e
  end.

(** [assert b] at line [line]. *)
Definition assert_ (line : nat) (b : bool) : result unit :=
  if b then Ok () else Raise (AssertionError line).

(** ** Python list helpers *)

(** [l.pop()]: the list without its last element, and that element. *)
Definition pop {A} (l : list A) : option (list A * A) :=
  x ← last l; Some (removelast l, x).

(** [while l and f(l[-1]): l.pop()] *)
Fixpoint pop_while {A} (f : A → bool) (l : list A) : list A :=
  match l with
  | [] => []
  | x :: l' =>
      match pop_while f l' with
      | [] => if f x then [] else [x]
      | r => x :: r
      end
  end.

(** [l[:-i]] for [i > 0]. *)
Definition drop_end {A} (i : nat) (l : list A) : list A :=
  take (length l - i) l.

(** ** Data model *)

(** The values the parser builds.  [Param name type] is the tuple
    [(name, type)], [Group items] is a list, and [Variadic unit] is the tuple
    [(unit, '...')] whose first component is a tuple or a list. *)
#[warnings="-register-all"]
Inductive node :=
  | Param (name type : string)
  | Group (items : list node)
  | Variadic (unit : node).

(** A shape is the list of the parameters of one calling form. *)
Abbreviation shape := (list node).

(** Structural equality of nodes, Python's [==] on them. *)
Fixpoint node_eqb (a b : node) {struct a} : bool :=
  match a, b with
  | Param n t, Param n' t' => bool_decide (n = n') && bool_decide (t = t')
  | Group l, Group l' =>
      (fix go (l l' : list node) {struct l} : bool :=
         match l, l' with
         | [], [] => true
         | x :: l, y :: l' => node_eqb x y && go l l'
         | _, _ => false
         end) l l'
  | Variadic u, Variadic u' => node_eqb u u'
  | _, _ => false
  end.

(** ** The parameter classifier: [_make_known] and [_known] *)

Definition _make_known (kwargs : list (string * list string)) :
    gmap string string :=
  foldl (λ known '(k, v), foldl (λ known i, <[i:=k]> known) known v) ∅ kwargs.

(** The keyword arguments of the call that builds [_known]. *)
Definition number_names : list string :=
  ["x"; "y"; "w"; "h"; "selected_idx"; "version"; "starting_item_index";
   "scroll_factor"; "frame_count"; "frame_duration"; "frame_start"].
Definition boolean_names : list string :=
  ["auto_clip"; "fixed_size"; "transparent"; "draw_border"; "bool"; "noclip";
   "drawborder"; "selected"; "force"; "close_on_enter"; "continuous";
   "mouse_control"].
Definition fullscreen_names : list string := ["fullscreen"].
Definition table_names : list string := ["param"; "opt"; "prop"].
Definition null_names : list string := [""].

Definition _known : gmap string string :=
  _make_known [
    ("number", number_names);
    ("boolean", boolean_names);
    ("fullscreen", fullscreen_names);
    ("table", table_names);
    ("null", null_names)
  ].

(** [_known.get(param, 'string')] *)
Definition classify (param : string) : string :=
  default "string" (_known !! param).

(** ** [_get_name] *)

Definition _get_name (n : node) : string :=
  match n with
  | Param name type =>
      if decide (type = "...") then "..."
      else Str.rstrip_chars "_"
             (default "" (head (Str.rsplit1 "_" (Str.drop_last 1 name))))
  | Variadic _ => "..."
  | Group _ => "..."
  end.

(** ** The parameter-name normalizer: [_aliases] and [_fix_param_name] *)

Definition _aliases : gmap string string :=
  <["cell" := "cells"]> (<["type" := "elem_type"]> ∅).

Definition _fix_param_name (param : string) : result string :=
  let param :=
    Str.replace_char " " "_" (Str.strip_chars "<>" (Str.strip (Str.lower param)))
  in
  let param := default param (_aliases !! param) in
  _ ← assert_ 41 (bool_decide (param ≠ "..."));
  Ok param.

(** ** The signature grammar parser: [_fix_param] *)

(** The first branch of [_fix_param]: a string without a comma. *)
Definition fix_param_atom (param : string) : result node :=
  param ← _fix_param_name param;
  Ok (Param param (classify param)).

(** [g[0][0].endswith(suffix)] for a list [g]: the first item must be a
    tuple whose first component is a string. *)
Definition first_name_endswith (suffix : string) (g : list node) :
    result bool :=
  match g with
  | Param name _ :: _ => Ok (Str.endswith suffix name)
  | Group [] :: _ => Raise IndexError
  | Group (_ :: _) :: _ => Raise AttributeError
  | Variadic _ :: _ => Raise AttributeError
  | [] => Raise IndexError
  end.

(** The condition of the workaround (line 60), evaluated left to right with
    short-circuiting [and]. *)
Definition workaround_applies (res : list node) (last_ : node) : result bool :=
  match last res, last_ with
  | Some prev, Group ((_ :: _) as items) =>
      b2 ← first_name_endswith "2" items;
      if b2 : bool then
        match prev with
        | Group ((_ :: _) as items') => first_name_endswith "1" items'
        | _ => Ok false
        end
      else Ok false
  | _, _ => Ok false
  end.

(** [last[0] = (last[0][0][:-2], last[0][1])], for the list [last] that the
    workaround took from [res]: its condition has checked that the first item
    of that list is a tuple [(name, type)], so the last case is not reached. *)
Definition rename_first (last_ : node) : result node :=
  match last_ with
  | Group (Param name type :: items) =>
      Ok (Group (Param (Str.drop_last 2 name) type :: items))
  | _ => Raise IndexError
  end.

(** The body of [_fix_param] from [assert res] on: what happens at the
    token ['...'].  [rec] is [_fix_param] on a string. *)
Definition fix_param_ellipsis (rec : string → result node)
    (res : list node) : result (list node) :=
  _ ← assert_ 56 (bool_decide (res ≠ []));
  match pop res with
  | None => Raise IndexError
  | Some (res, last_) =>
      w ← workaround_applies res last_;
      '(res, last_) ←
        (if w : bool then
           match pop res with
           | Some (res, prev) => last_ ← rename_first prev; Ok (res, last_)
           | None => Raise IndexError
           end
         else Ok (res, last_));
      let name := _get_name last_ in
      if decide (name = "...") then Ok (res ++ [Variadic last_])
      else
        let res := pop_while (λ n, bool_decide (_get_name n = name)) res in
        u ← rec name;
        Ok (res ++ [Variadic u])
  end.

(** The [for] loop of [_fix_param] over the tokens [param], with the list
    [res] built so far. *)
Fixpoint fix_param_loop (rec : string → result node)
    (res : list node) (param : list string) : result (list node) :=
  match param with
  | [] => Ok res
  | p :: param =>
      let p := Str.strip p in
      if decide (p ≠ "...") then
        u ← rec p;
        fix_param_loop rec (res ++ [u]) param
      else fix_param_ellipsis rec res
  end.

(** [_fix_param] on a string.  A string with a comma is split and the
    list is parsed by [_fix_param] again; its pieces have no comma and take
    the first branch, and so does the name that is parsed again at ['...'].
    The recursive equation of the source is [fix_param_str_equation]. *)
Definition _fix_param_str (param : string) : result node :=
  if Str.contains "," param
  then Group <$> fix_param_loop fix_param_atom [] (Str.split "," param)
  else fix_param_atom param.

(** [_fix_param] on a list of tokens. *)
Definition _fix_param (param : list string) : result shape :=
  fix_param_loop _fix_param_str [] param.

(** ** Indexing a Python list *)

(** [l[i]] for [i >= 0] and [l[-1]]; both raise [IndexError] out of range. *)
Definition getitem {A} (l : list A) (i : nat) : result A :=
  match l !! i with
  | Some x => Ok x
  | None => Raise IndexError
  end.

Definition getlast {A} (l : list A) : result A :=
  match last l with
  | Some x => Ok x
  | None => Raise IndexError
  end.

(** [l[i] = v] for [i >= 0] and [l[-1] = v]. *)
Definition setitem {A} (l : list A) (i : nat) (v : A) : result (list A) :=
  if decide (i < length l) then Ok (<[i:=v]> l) else Raise IndexError.

Definition setlast {A} (l : list A) (v : A) : result (list A) :=
  match l with
  | [] => Raise IndexError
  | _ :: _ => Ok (removelast l ++ [v])
  end.

(** ** Generators over a mutable [params]: the hooks *)

(** A hook receives the list [params], may assign to its items between two
    [yield]s and may raise.  Its caller copies every yielded value at the time
    it is yielded ([copy.deepcopy]), so a generator is a computation over the
    current [params] and the list of the copies yielded so far. *)
Definition gen (A : Type) : Type :=
  shape * list shape → result (A * (shape * list shape)).

#[global] Instance gen_ret : MRet gen := λ A a st, Ok (a, st).
#[global] Instance gen_bind : MBind gen := λ A B f m st,
  match m st with
  | Ok (a, st') => f a st'
  | Raise e => Raise e
  end.

(** The current value of [params]. *)
Definition get_params : gen shape := λ st, Ok (st.1, st).

(** A computation that does not touch [params], inside a hook. *)
Definition lift {A} (r : result A) : gen A := λ st,
  match r with
  | Ok a => Ok (a, st)
  | Raise e => Raise e
  end.

(** An assignment to [params], which may raise. *)
Definition update_params (f : shape → result shape) : gen unit := λ st,
  match f st.1 with
  | Ok params => Ok ((), (params, st.2))
  | Raise e => Raise e
  end.

(** [yield v] *)
Definition yield_ (v : shape) : gen unit := λ st, Ok ((), (st.1, st.2 ++ [v])).

Arguments yield_ : simpl never.

(** [yield params] *)
Definition yield_params : gen unit := params ← get_params; yield_ params.

(** [assert b] inside a hook. *)
Definition gen_assert (line : nat) (b : bool) : gen unit :=
  lift (assert_ line b).

(** [for i in l: body(i)] *)
Fixpoint gen_for {A} (l : list A) (body : A → gen unit) : gen unit :=
  match l with
  | [] => mret ()
  | i :: l => _ ← body i; gen_for l body
  end.

(** [assert params[i] == v] *)
Definition assert_item (line i : nat) (v : node) : gen unit :=
  params ← get_params;
  x ← lift (getitem params i);
  gen_assert line (node_eqb x v).

(** [params[i] = v] *)
Definition assign_item (i : nat) (v : node) : gen unit :=
  update_params (λ params, setitem params i v).

(** [tuple(map(copy.deepcopy, hook(params)))], and [params] afterwards. *)
Definition run_hook (h : gen unit) (params : shape) :
    result (list shape * shape) :=
  match h (params, []) with
  | Ok (_, (params, yielded)) => Ok (yielded, params)
  | Raise e => Raise e
  end.

(** [param.append(v)], where [param] is the list stored in [params[-1]]. *)
Definition append_to_last (v : node) : gen unit :=
  update_params (λ params,
    match last params with
    | Some (Group param) => setlast params (Group (param ++ [v]))
    | Some _ => Raise AttributeError
    | None => Raise IndexError
    end).

Definition _background9_hook : gen unit :=
  params ← get_params;
  x ← lift (getlast params);
  _ ← gen_assert 90 (node_eqb x (Param "middle" "string"));
  _ ← update_params (λ params, setlast params (Group []));
  _ ← append_to_last (Param "middle_x" "number");
  _ ← yield_params;
  _ ← append_to_last (Param "middle_y" "number");
  _ ← yield_params;
  _ ← append_to_last (Param "middle_x2" "number");
  _ ← append_to_last (Param "middle_y2" "number");
  yield_params.

Definition _bgcolor_hook : gen unit :=
  params ← get_params;
  _ ← yield_ params;
  gen_for (seq 1 (length params - 1)) (λ i, yield_ (drop_end i params)).

Definition _size_hook : gen unit :=
  _ ← yield_params;
  yield_ [Group [Param "w" "number"; Param "h" "number"]].

Definition _style_hook : gen unit :=
  _ ← assign_item 0 (Group [Param "name" "string"]);
  _ ← yield_params;
  _ ← assign_item 0 (Group [Variadic (Param "selectors" "string")]);
  yield_params.

(** The hook of [dropdown] (named [_scroll_container_hook] in the source). *)
Definition _scroll_container_hook : gen unit :=
  params ← get_params;
  match params !! 1 with
  | Some (Param _ _) =>
      assign_item 1 (Group [Param "w" "number"; Param "h" "number"])
  | Some (Group []) => lift (Raise IndexError)
  | Some (Group (_ :: _)) | Some (Variadic _) =>
      assign_item 1 (Param "w" "number")
  | None => lift (Raise IndexError)
  end.

Definition _textlist_hook : gen unit :=
  params ← get_params;
  if decide (5 < length params) then yield_ (take 5 params) else mret ().

Definition _model_hook : gen unit :=
  _ ← assert_item 147 4 (Param "textures" "string");
  _ ← assign_item 4 (Group [Variadic (Param "textures" "string")]);
  _ ← assert_item 151 5
        (Group [Param "rotation_x" "string"; Param "y" "number"]);
  _ ← assign_item 5
        (Group [Param "rotation_x" "number"; Param "rotation_y" "number"]);
  _ ← assert_item 155 8 (Param "frame_loop_range" "string");
  _ ← assign_item 8
        (Group [Param "frame_loop_begin" "number";
                Param "frame_loop_end" "number"]);
  params ← get_params;
  gen_for (seq 5 (length params + 1 - 5)) (λ i, yield_ (take i params)).

(** The registry, in the order of the [@hook] decorators of the source (of
    two stacked decorators the lower one is applied first). *)
Definition _hooks : gmap string (gen unit) :=
  <["model" := _model_hook]> (
  <["textlist" := _textlist_hook]> (
  <["dropdown" := _scroll_container_hook]> (
  <["style" := _style_hook]> (
  <["style_type" := _style_hook]> (
  <["size" := _size_hook]> (
  <["bgcolor" := _bgcolor_hook]> (
  <["background9" := _background9_hook]> ∅))))))).

Definition _passive_hooks : gset string := {["dropdown"; "textlist"]}.

(** ** [_param_re] *)

(** The line feed, and the two literals with line feeds of [_raw_parse]. *)
Definition nl : string := String "010" "".
Definition elements_heading : string :=
  nl +:+ "Elements" +:+ nl +:+ "--------" +:+ nl.
Definition next_heading : string := nl +:+ "----".
Definition record_heading : string := nl +:+ "### ".

(** A backtick, one or more characters other than a backtick, a backtick:
    the characters between, and what follows. *)
Definition backticked (s : string) : option (string * string) :=
  if Str.startswith "`" s then
    match Str.partition "`" (Str.drop 1 s) with
    | Some (name, rest) =>
        if decide (name = "") then None else Some (name, rest)
    | None => None
    end
  else None.

(** The end of the pattern: an optional colon and a space. *)
Definition colon_space (s : string) : bool :=
  Str.startswith ": " s || Str.startswith " " s.

(** [_param_re.match(line)]: groups 1 and 2 of a match of
    [^\* `([^`]+)`(?: and `([^`]+)`)?:? ] at the start of [line]. *)
Definition _param_re_match (line : string) : option (string * option string) :=
  if Str.startswith "* " line then
    match backticked (Str.drop 2 line) with
    | Some (g1, rest) =>
        let without := if colon_space rest then Some (g1, None) else None in
        if Str.startswith " and " rest then
          match backticked (Str.drop 5 rest) with
          | Some (g2, rest') =>
              if colon_space rest' then Some (g1, Some g2) else without
          | None => without
          end
        else without
    | None => None
    end
  else None.

(** ** [_raw_parse] *)

(** The first statements of [_raw_parse]: everything from the elements
    heading to the end of the next heading, without that heading's line. *)
Definition after_heading (data : string) : result string :=
  getlast (Str.split1 elements_heading data).

Definition before_next_heading (data : string) : result string :=
  getitem (Str.split1 next_heading data) 0.

Definition without_last_line (data : string) : result string :=
  getitem (Str.rsplit1 nl data) 0.

Definition elements_section (data : string) : result string :=
  data ← after_heading data;
  data ← before_next_heading data;
  without_last_line data.

(** The [for line in lines] loop that collects the optional parameters. *)
Fixpoint optional_names (optional_params : gset string)
    (lines : list string) : result (gset string) :=
  match lines with
  | [] => Ok optional_params
  | line :: lines =>
      match _param_re_match line with
      | Some (g1, g2) =>
          if Str.contains "optional" (Str.lower line) then
            p1 ← _fix_param_name g1;
            let optional_params := {[p1]} ∪ optional_params in
            match g2 with
            | Some p2 =>
                p2 ← _fix_param_name p2;
                optional_names ({[p2]} ∪ optional_params) lines
            | None => optional_names optional_params lines
            end
          else optional_names optional_params lines
      | None => optional_names optional_params lines
      end
  end.

(** The test of the [while True] loop on [last_param]: a tuple whose first
    component is a string that is in [optional_params]. *)
Definition is_optional (optional_params : gset string) (last_param : node) :
    bool :=
  match last_param with
  | Param name _ => bool_decide (name ∈ optional_params)
  | Group _ | Variadic _ => false
  end.

(** The [while True] loop: the shapes it yields for [params]. *)
Equations? optional_variants (optional_params : gset string)
    (params : shape) : list shape by wf (length params) lt :=
  optional_variants optional_params params with Str.inspect (last params) := {
    | @exist (Some last_param) H =>
        if is_optional optional_params last_param
        then params :: optional_variants optional_params (drop_end 1 params)
        else [params]
    | @exist None _ => [params] }.
Proof.
  apply last_Some in H as [l' ->]. unfold drop_end.
  rewrite length_take, length_app. simpl. lia.
Qed.

(** What [_raw_parse] yields for an element [name] with the parsed
    [params] and the description [lines]: from [if name in _hooks] on. *)
Definition element_shapes (name : string) (params : shape)
    (lines : list string) : result (list (string * shape)) :=
  '(hooked, params, done) ←
    match _hooks !! name with
    | Some h =>
        '(yielded, params) ← run_hook h params;
        Ok ((λ p, (name, p)) <$> reverse yielded, params,
            bool_decide (name ∉ _passive_hooks))
    | None => Ok ([], params, false)
    end;
  if done : bool then Ok hooked
  else
    optional_params ← optional_names ∅ lines;
    Ok (hooked ++ ((λ p, (name, p)) <$> optional_variants optional_params params)).

(** The body of [for elem_data in data.split('\n### ')]. *)
Definition element_record (elem_data : string) :
    result (list (string * shape)) :=
  match Str.split nl elem_data with
  | [] => Raise IndexError
  | raw_elem :: lines =>
      if negb (Str.startswith "`" raw_elem) || negb (Str.endswith "`" raw_elem)
      then Ok []
      else
        match Str.split1 "[" (Str.slice 1 2 raw_elem) with
        | [name; params] =>
            params ←
              (if decide (params ≠ "") then _fix_param (Str.split ";" params)
               else Ok []);
            element_shapes name params lines
        | _ => Raise ValueError
        end
  end.

(** [_raw_parse(data)]: the pairs it yields, in order. *)
Definition _raw_parse (data : string) : result (list (string * shape)) :=
  data ← elements_section data;
  mjoin <$> mapM element_record (Str.split record_heading data).

(** ** [parse] *)

(** [v.sort(key=len, reverse=True)]: Python's sort is stable, also with
    [reverse=True], so of two shapes of the same length the one that was
    first in [v] stays first. *)
Fixpoint insert_by_len (x : shape) (v : list shape) : list shape :=
  match v with
  | [] => [x]
  | y :: v' =>
      if decide (length x < length y) then y :: insert_by_len x v'
      else x :: v
  end.

Definition sort_by_len (v : list shape) : list shape :=
  foldr insert_by_len [] v.

(** The first loop of [parse]. *)
Definition collect (pairs : list (string * shape)) : gmap string (list shape) :=
  foldl (λ res '(k, v), <[k := default [] (res !! k) ++ [v]]> res) ∅ pairs.

Definition parse (data : string) : result (gmap string (list shape)) :=
  pairs ← _raw_parse data;
  Ok (sort_by_len <$> collect pairs).

(** ** The documents of the examples *)

(** The elements heading, the record of [label], and a next heading. *)
Definition label_document : string :=
  elements_heading +:+ record_heading +:+ "`label[x,y;label]`" +:+ nl +:+
  nl +:+ "Next" +:+ next_heading +:+ nl.

(** The record of [label] and one more line, with no elements heading. *)
Definition headless_document : string :=
  "`label[x,y;label]`" +:+ nl +:+ "Next".

(** The records of [size] and [style] as [lua_api.txt] has them. *)
Definition size_document : string :=
  elements_heading +:+ record_heading +:+ "`size[<W>,<H>,<fixed_size>]`" +:+
  nl +:+ nl +:+ "Next" +:+ next_heading +:+ nl.

Definition style_document : string :=
  elements_heading +:+ record_heading +:+
  "`style[<selector 1>,<selector 2>,...;<prop1>;<prop2>;...]`" +:+
  nl +:+ nl +:+ "Next" +:+ next_heading +:+ nl.

(** An element [foo] whose one parameter is documented as optional. *)
Definition optional_document : string :=
  elements_heading +:+ record_heading +:+ "`foo[<a>]`" +:+ nl +:+
  "* `a`: optional" +:+ nl +:+ nl +:+ "Next" +:+ next_heading +:+ nl.

(** The shape that [_fix_param] gives for the signature of [style]. *)
Definition style_params : shape :=
  [Group [Variadic (Param "selector" "string")];
   Variadic (Param "prop" "table")].

(** ** Predicates of the properties *)

(** A parameter's name has no comma. *)
Definition comma_free_names (u : node) : Prop :=
  ∀ n t, u = Param n t → Str.mem "," n = false.

(** The order of the sorted lists: the longer shape first. *)
Definition longer_or_equal (a b : shape) : Prop := length b ≤ length a.

(** Every character of a string satisfies [P]. *)
Fixpoint all_chars (P : ascii → bool) (s : string) : bool :=
  match s with
  | "" => true
  | String c s' => P c && all_chars P s'
  end.

(** A character that [lower] leaves as it is, and one that is moreover not
    a space. *)
Definition is_lower_char (c : ascii) : bool :=
  bool_decide (Str.lower_char c = c).
Definition normal_char (c : ascii) : bool :=
  is_lower_char c && bool_decide (c ≠ " "%char).

(** The kinds of nodes. *)
Definition is_param (u : node) : Prop :=
  match u with Param _ _ => True | _ => False end.
Definition not_variadic (u : node) : Prop :=
  match u with Variadic _ => False | _ => True end.
Definition flat_item (u : node) : Prop :=
  match u with Group _ => False | _ => True end.

(** A variadic tail occurs in a list only as its last element. *)
Definition variadic_last (l : shape) : Prop :=
  ∀ i u, l !! i = Some (Variadic u) → S i = length l.

(** The same inside a group, also one that a variadic tail wraps. *)
Definition groups_variadic_last (u : node) : Prop :=
  match u with
  | Group items | Variadic (Group items) => variadic_last items
  | _ => True
  end.

(** A group, also one that a variadic tail wraps, is not empty and holds no
    group. *)
Definition group_ok (u : node) : Prop :=
  match u with
  | Group items | Variadic (Group items) => items ≠ [] ∧ Forall flat_item items
  | _ => True
  end.

(** What [_fix_param] on a string can return: a parameter or such a
    group. *)
Definition unit_ok (u : node) : Prop :=
  match u with
  | Param _ _ => True
  | Group items => items ≠ [] ∧ Forall flat_item items
  | Variadic _ => False
  end.

(** [u] is the result of [rec] on some string. *)
Definition made_by (rec : string → result node) (u : node) : Prop :=
  ∃ s, rec s = Ok u.

(** The exceptions of the grammar parser. *)
Definition grammar_error (e : exn) : Prop :=
  e = AssertionError 41 ∨ e = AssertionError 56 ∨ e = AttributeError.

(** The three assignments of [_model_hook]. *)
Definition model_rewrite (params : shape) : shape :=
  <[8:=Group [Param "frame_loop_begin" "number";
              Param "frame_loop_end" "number"]]>
    (<[5:=Group [Param "rotation_x" "number"; Param "rotation_y" "number"]]>
       (<[4:=Group [Variadic (Param "textures" "string")]]> params)).

(** The shape that [_fix_param] gives for the signature of [model]. *)
Definition model_params : shape :=
  [Group [Param "x" "number"; Param "y" "number"];
   Group [Param "w" "number"; Param "h" "number"];
   Param "name" "string"; Param "mesh" "string"; Param "textures" "string";
   Group [Param "rotation_x" "string"; Param "y" "number"];
   Param "continuous" "boolean"; Param "mouse_control" "boolean";
   Param "frame_loop_range" "string"; Param "animation_speed" "string"].

(** The shapes that [pairs] holds for the element [k], in order. *)
Definition shapes_of (k : string) (pairs : list (string * shape)) :
    list shape :=
  (filter (λ kv : string * shape, kv.1 = k) pairs).*2.

(** * Properties *)

(** A closed decidable proposition, by computation. *)
Ltac decide_closed := refine (bool_decide_unpack _ _); vm_compute; exact I.

(** ** Unfolding the loops defined by well-founded recursion *)

Lemma split_step sep s :
  Str.split sep s =
  match (if decide (sep = "") then None else Str.partition sep s) with
  | Some (a, b) => a :: Str.split sep b
  | None => [s]
  end.
Proof.
  funelim (Str.split sep s).
  - by rewrite H.
  - by rewrite e.
Qed.

Lemma optional_variants_step opt params :
  optional_variants opt params =
  match last params with
  | Some x =>
      if is_optional opt x
      then params :: optional_variants opt (drop_end 1 params)
      else [params]
  | None => [params]
  end.
Proof.
  funelim (optional_variants opt params).
  - by rewrite H.
  - by rewrite e.
Qed.

Lemma drop_end_snoc {A} (l : list A) x : drop_end 1 (l ++ [x]) = l.
Proof.
  unfold drop_end. rewrite length_app. simpl.
  replace (length l + 1 - 1) with (length l) by lia.
  by rewrite take_app_length.
Qed.

Lemma optional_variants_nil opt : optional_variants opt [] = [[]].
Proof. by rewrite optional_variants_step. Qed.

Lemma optional_variants_snoc opt l x :
  optional_variants opt (l ++ [x]) =
  if is_optional opt x then (l ++ [x]) :: optional_variants opt l
  else [l ++ [x]].
Proof.
  rewrite optional_variants_step, last_snoc. by rewrite drop_end_snoc.
Qed.

(** ** Facts about the string operations *)

Lemma append_cons c s t : String c s +:+ t = String c (s +:+ t).
Proof. reflexivity. Qed.

Lemma append_nil_l t : "" +:+ t = t.
Proof. reflexivity. Qed.

Lemma startswith_append p s : Str.startswith p (p +:+ s) = true.
Proof.
  induction p as [|a p IH]; [done|].
  rewrite append_cons. simpl. by rewrite decide_True.
Qed.

Lemma drop_append p s : Str.drop (String.length p) (p +:+ s) = s.
Proof. induction p as [|a p IH]; [by destruct s|]. by rewrite append_cons. Qed.

Lemma startswith_sound p s :
  Str.startswith p s = true → s = p +:+ Str.drop (String.length p) s.
Proof.
  revert s. induction p as [|a p IH]; intros s; [by destruct s|].
  destruct s as [|b s]; simpl; [done|].
  case_decide as Hab; [|done]. subst b. intros Hs.
  rewrite append_cons. f_equal. by apply IH.
Qed.

Lemma partition_sound sep s a b :
  Str.partition sep s = Some (a, b) → s = a +:+ sep +:+ b.
Proof.
  revert a b. induction s as [|c s IH]; intros a b.
  - simpl. destruct (Str.startswith sep "") eqn:Hs; [|done].
    intros [= <- <-]. by apply startswith_sound in Hs.
  - cbn [Str.partition].
    destruct (Str.startswith sep (String c s)) eqn:Hs.
    + intros [= <- <-]. by apply startswith_sound in Hs.
    + destruct (Str.partition sep s) as [[a' b']|]; [|done].
      intros [= <- <-]. rewrite append_cons. f_equal. by apply IH.
Qed.

Lemma partition_complete sep pre post :
  is_Some (Str.partition sep (pre +:+ sep +:+ post)).
Proof.
  induction pre as [|c pre IH].
  - rewrite append_nil_l.
    destruct (sep +:+ post) eqn:Heq; simpl; rewrite <-Heq, startswith_append; eauto.
  - rewrite append_cons. cbn [Str.partition].
    destruct (Str.startswith sep _); [eauto|].
    destruct IH as [[a b] ->]. eauto.
Qed.

(** [sub in s] holds exactly when [sub] occurs in [s]. *)
Lemma contains_spec sep s :
  Str.contains sep s = true ↔ ∃ pre post, s = pre +:+ sep +:+ post.
Proof.
  unfold Str.contains. rewrite bool_decide_eq_true. split.
  - intros [[a b] Hp]. apply partition_sound in Hp. eauto.
  - intros (pre & post & ->). apply partition_complete.
Qed.

Lemma mem_map f c s :
  (∀ d, f d = c → d = c) →
  Str.mem c s = false → Str.mem c (Str.map f s) = false.
Proof.
  intros Hf. induction s as [|d s IH]; simpl; [done|].
  destruct (decide (c = d)); [done|]. intros Hs.
  rewrite decide_False; [by apply IH|]. intros ->. by apply n, eq_sym, Hf.
Qed.

Lemma mem_take c n s : Str.mem c s = false → Str.mem c (Str.take n s) = false.
Proof.
  revert n. induction s as [|d s IH]; intros [|n]; simpl; try done.
  destruct (decide (c = d)); [done|]. apply IH.
Qed.

Lemma mem_drop c n s : Str.mem c s = false → Str.mem c (Str.drop n s) = false.
Proof.
  revert n. induction s as [|d s IH]; intros [|n]; simpl; try done.
  destruct (decide (c = d)); [done|]. apply IH.
Qed.

Lemma mem_lstrip_by c f s :
  Str.mem c s = false → Str.mem c (Str.lstrip_by f s) = false.
Proof.
  induction s as [|d s IH]; simpl; [done|].
  destruct (decide (c = d)) as [|Hne]; [done|]. intros Hs.
  destruct (f d); [by apply IH|]. simpl. by rewrite decide_False.
Qed.

Lemma mem_rstrip_by c f s :
  Str.mem c s = false → Str.mem c (Str.rstrip_by f s) = false.
Proof.
  induction s as [|d s IH]; simpl; [done|].
  destruct (decide (c = d)) as [|Hne]; [done|]. intros Hs.
  specialize (IH Hs).
  destruct (Str.rstrip_by f s) as [|e r].
  - destruct (f d); [done|]. simpl. by rewrite decide_False.
  - cbn [Str.mem]. by rewrite decide_False.
Qed.

Lemma mem_rpartition c sep s a b :
  Str.rpartition sep s = Some (a, b) →
  Str.mem c s = false → Str.mem c a = false.
Proof.
  revert a b. induction s as [|d s IH]; intros a b.
  - simpl. destruct (Str.startswith sep ""); [|done]. by intros [= <- <-].
  - cbn [Str.rpartition].
    destruct (Str.rpartition sep s) as [[a' b']|].
    + intros [= <- <-]. simpl. destruct (decide (c = d)); [done|].
      by apply (IH a' b').
    + destruct (Str.startswith sep (String d s)); [|done].
      by intros [= <- <-].
Qed.

Lemma contains_char c s : Str.contains (String c "") s = Str.mem c s.
Proof.
  unfold Str.contains. induction s as [|d s IH]; [done|].
  cbn [Str.partition Str.startswith Str.mem].
  destruct (decide (c = d)) as [->|Hne].
  - by apply bool_decide_eq_true_2.
  - rewrite <-IH.
    destruct (Str.partition (String c "") s) as [[a b]|].
    + rewrite !bool_decide_eq_true_2; eauto.
    + rewrite !bool_decide_eq_false_2; [done|by intros []..].
Qed.

Lemma lower_char_comma d : Str.lower_char d = ","%char → d = ","%char.
Proof.
  destruct d as [[] [] [] [] [] [] [] []]; vm_compute; congruence.
Qed.

Lemma partition_char_before c s a b :
  Str.partition (String c "") s = Some (a, b) → Str.mem c a = false.
Proof.
  revert a b. induction s as [|d s IH]; intros a b; [done|].
  cbn [Str.partition Str.startswith].
  destruct (decide (c = d)) as [->|Hne]; [by intros [= <- <-]|].
  destruct (Str.partition (String c "") s) as [[a' b']|]; [|done].
  intros [= <- <-]. simpl. rewrite decide_False by done. by apply (IH a' b').
Qed.

Lemma partition_None_mem c s :
  Str.partition (String c "") s = None → Str.mem c s = false.
Proof.
  intros Hp. rewrite <-contains_char. unfold Str.contains. rewrite Hp.
  apply bool_decide_eq_false_2. by intros [].
Qed.

(** The pieces of [s.split(c)] do not contain the character [c]. *)
Lemma split_char_pieces c s :
  Forall (λ p, Str.mem c p = false) (Str.split (String c "") s).
Proof.
  remember (String.length s) as n eqn:Hn. revert s Hn.
  induction n as [n IH] using lt_wf_ind. intros s ->.
  rewrite split_step. rewrite decide_False by done.
  destruct (Str.partition (String c "") s) as [[a b]|] eqn:Hp.
  - constructor; [by apply (partition_char_before _ _ _ _ Hp)|].
    apply (IH (String.length b)); [|done].
    eapply Str.partition_shorter; [|exact Hp]. done.
  - constructor; [by apply partition_None_mem|constructor].
Qed.

(** ** Names have no comma *)

Lemma aliases_comma_free : map_Forall (λ _ v, Str.mem "," v = false) _aliases.
Proof. decide_closed. Qed.

Lemma fix_param_name_comma_free s n :
  Str.mem "," s = false → _fix_param_name s = Ok n → Str.mem "," n = false.
Proof.
  intros Hs. unfold _fix_param_name.
  set (p := Str.replace_char _ _ _).
  assert (Str.mem "," p = false) as Hp.
  { apply mem_map.
    - intros d. case_decide; [discriminate|done].
    - apply mem_rstrip_by, mem_lstrip_by, mem_rstrip_by, mem_lstrip_by.
      apply mem_map; [apply lower_char_comma|done]. }
  destruct (_aliases !! p) as [v|] eqn:Hv; simpl.
  - case_bool_decide; simpl; [|done]. intros [= <-].
    by apply (aliases_comma_free p v).
  - case_bool_decide; simpl; [|done]. by intros [= <-].
Qed.

Lemma get_name_comma_free n t :
  Str.mem "," n = false → Str.mem "," (_get_name (Param n t)) = false.
Proof.
  intros Hn. simpl. case_decide; [done|].
  apply mem_rstrip_by. unfold Str.rsplit1.
  assert (Str.mem "," (Str.drop_last 1 n) = false) as Hd by by apply mem_take.
  destruct (Str.rpartition "_" (Str.drop_last 1 n)) as [[a b]|] eqn:Hr; simpl.
  - by apply (mem_rpartition _ _ _ _ _ Hr).
  - done.
Qed.

Lemma fix_param_atom_not_bare s e :
  fix_param_atom s = Raise e → e ≠ AssertionError 56.
Proof.
  unfold fix_param_atom, _fix_param_name.
  case_bool_decide; simpl; [done|]. by intros [= <-].
Qed.

Lemma fix_param_str_param s n t :
  _fix_param_str s = Ok (Param n t) → Str.mem "," n = false.
Proof.
  unfold _fix_param_str. destruct (Str.contains "," s) eqn:Hc.
  - by destruct (fix_param_loop _ _ _).
  - rewrite contains_char in Hc. unfold fix_param_atom.
    destruct (_fix_param_name s) as [m|] eqn:Hm; simpl; [|done].
    intros [= <- _]. by apply (fix_param_name_comma_free s).
Qed.

(** The name that is parsed again at ['...'] has no comma, so that call of
    [_fix_param] takes the first branch. *)
Lemma fix_param_atom_name n t :
  Str.mem "," n = false →
  _fix_param_str (_get_name (Param n t)) = fix_param_atom (_get_name (Param n t)).
Proof.
  intros Hn. unfold _fix_param_str.
  by rewrite contains_char, get_name_comma_free.
Qed.

Lemma pop_snoc {A} (l : list A) x : pop (l ++ [x]) = Some (l, x).
Proof. unfold pop. rewrite last_snoc. simpl. by rewrite removelast_last. Qed.

Lemma first_name_endswith_not_assert suffix g e k :
  first_name_endswith suffix g = Raise e → e ≠ AssertionError k.
Proof. destruct g as [|[? ?|[|? ?]|?] ?]; simpl; by intros [= <-]. Qed.

Lemma workaround_applies_not_assert res last_ e k :
  workaround_applies res last_ = Raise e → e ≠ AssertionError k.
Proof.
  unfold workaround_applies.
  destruct (last res) as [prev|]; [|done].
  destruct last_ as [| [|x items] |]; try done.
  destruct (first_name_endswith "2" (x :: items)) as [[]|e'] eqn:H2; simpl.
  - destruct prev as [| [|y items'] |]; try done.
    apply first_name_endswith_not_assert.
  - done.
  - intros [= <-]. by apply (first_name_endswith_not_assert _ _ _ k H2).
Qed.

Lemma fix_param_ellipsis_not_bare res :
  res ≠ [] →
  Forall (λ u, ∀ n t, u = Param n t → Str.mem "," n = false) res →
  fix_param_ellipsis _fix_param_str res ≠ Raise (AssertionError 56).
Proof.
  intros Hne Hres. unfold fix_param_ellipsis.
  rewrite bool_decide_eq_true_2 by done. simpl.
  destruct res as [|x res _] using rev_ind; [done|].
  rewrite pop_snoc. rewrite Forall_app, Forall_singleton in Hres.
  destruct Hres as [Hres Hx].
  destruct (workaround_applies res x) as [[]|e] eqn:Hw; simpl.
  - destruct (pop res) as [[res' prev]|]; [|done].
    destruct prev as [| [|[n t| |] items] |]; simpl; try done.
  - case_decide as Hname; [done|].
    destruct x as [n t| |]; [|done..].
    rewrite (fix_param_atom_name n t) by by apply (Hx n t).
    destruct (fix_param_atom _) as [u|e] eqn:Ha; simpl; [done|].
    intros [= ->]. by apply (fix_param_atom_not_bare _ _ Ha).
  - intros [= ->]. by apply (workaround_applies_not_assert _ _ _ 56 Hw).
Qed.

(** ** The recursion of [_fix_param] *)

Lemma fix_param_ellipsis_inner res :
  Forall comma_free_names res →
  fix_param_ellipsis fix_param_atom res = fix_param_ellipsis _fix_param_str res.
Proof.
  intros Hres. unfold fix_param_ellipsis.
  destruct (assert_ 56 _); simpl; [|done].
  destruct res as [|x res _] using rev_ind; [done|].
  rewrite pop_snoc. rewrite Forall_app, Forall_singleton in Hres.
  destruct Hres as [Hres Hx].
  destruct (workaround_applies res x) as [[]|e]; simpl; [| |done].
  - destruct (pop res) as [[res' prev]|]; [|done].
    destruct (rename_first prev) as [[| |]|] eqn:Hr; simpl; try done.
    by destruct prev as [| [|[n' t'| |] items] |].
  - case_decide; [done|].
    destruct x as [n t| |]; [|done..].
    by rewrite (fix_param_atom_name n t) by by apply (Hx n t).
Qed.

Lemma fix_param_atom_comma_free s u :
  Str.mem "," s = false → fix_param_atom s = Ok u → comma_free_names u.
Proof.
  intros Hs. unfold fix_param_atom.
  destruct (_fix_param_name s) as [m|] eqn:Hm; simpl; [|done].
  intros [= <-] n t [= <- _]. by apply (fix_param_name_comma_free s).
Qed.

Lemma fix_param_str_atom s :
  Str.mem "," s = false → _fix_param_str s = fix_param_atom s.
Proof. intros Hs. unfold _fix_param_str. by rewrite contains_char, Hs. Qed.

Lemma fix_param_loop_inner res param :
  Forall (λ p, Str.mem "," p = false) param →
  Forall comma_free_names res →
  fix_param_loop fix_param_atom res param =
  fix_param_loop _fix_param_str res param.
Proof.
  intros Hparam. revert res.
  induction Hparam as [|p param Hp _ IH]; intros res Hres; [done|].
  simpl. case_decide.
  - assert (Str.mem "," (Str.strip p) = false) as Hs
      by by apply mem_rstrip_by, mem_lstrip_by.
    rewrite (fix_param_str_atom _ Hs).
    destruct (fix_param_atom (Str.strip p)) as [u|e] eqn:Hu; simpl; [|done].
    apply IH. apply Forall_app. split; [done|].
    apply Forall_singleton. by apply (fix_param_atom_comma_free _ _ Hs Hu).
  - by apply fix_param_ellipsis_inner.
Qed.

(** The model of [_fix_param] on a string satisfies the recursive equation
    of the source: the list of a string with a comma is parsed by
    [_fix_param] itself. *)
Lemma fix_param_str_equation param :
  _fix_param_str param =
  if Str.contains "," param
  then Group <$> fix_param_loop _fix_param_str [] (Str.split "," param)
  else fix_param_atom param.
Proof.
  unfold _fix_param_str at 1. destruct (Str.contains "," param); [|done].
  rewrite fix_param_loop_inner; [done| |constructor].
  apply split_char_pieces.
Qed.

(** ** Running the hooks *)

Lemma yield_run v params yielded :
  yield_ v (params, yielded) = Ok ((), (params, yielded ++ [v])).
Proof. reflexivity. Qed.

Lemma gen_for_yield {A} (f : A → shape) (l : list A) params yielded :
  gen_for l (λ i, yield_ (f i)) (params, yielded) =
  Ok ((), (params, yielded ++ (f <$> l))).
Proof.
  revert yielded. induction l as [|i l IH]; intros yielded; simpl.
  - by rewrite app_nil_r.
  - unfold mbind, gen_bind. rewrite yield_run, IH. by rewrite <-app_assoc.
Qed.

(** An element with a hook that is not passive gets the copies of what its
    hook yields, last first, and nothing else. *)
Lemma element_shapes_exclusive name h params lines yielded params' :
  _hooks !! name = Some h → name ∉ _passive_hooks →
  run_hook h params = Ok (yielded, params') →
  element_shapes name params lines =
  Ok ((λ p, (name, p)) <$> reverse yielded).
Proof.
  intros Hh Hp Hrun. unfold element_shapes. rewrite Hh. simpl.
  rewrite Hrun. simpl. by rewrite bool_decide_eq_true_2.
Qed.

Lemma run_bgcolor_hook params :
  run_hook _bgcolor_hook params =
  Ok (params :: ((λ i, drop_end i params) <$> seq 1 (length params - 1)),
      params).
Proof.
  unfold run_hook, _bgcolor_hook, mbind, gen_bind, get_params. simpl.
  by rewrite ?yield_run, gen_for_yield.
Qed.

Lemma run_style_hook params :
  params ≠ [] →
  run_hook _style_hook params =
  Ok ([<[0:=Group [Param "name" "string"]]> params;
       <[0:=Group [Variadic (Param "selectors" "string")]]> params],
      <[0:=Group [Variadic (Param "selectors" "string")]]> params).
Proof. by destruct params. Qed.

(** ** Collecting and sorting the shapes *)

Lemma collect_step (res : gmap string (list shape)) name (vs : list shape) :
  foldl (λ res '(k, v), <[k := default [] (res !! k) ++ [v]]> res) res
        ((λ p, (name, p)) <$> vs) =
  match vs with
  | [] => res
  | _ :: _ => <[name := default [] (res !! name) ++ vs]> res
  end.
Proof.
  revert res. induction vs as [|v vs IH]; intros res; [done|].
  simpl. rewrite IH. destruct vs as [|v' vs]; [done|].
  rewrite lookup_insert_eq, insert_insert_eq. simpl.
  by rewrite <-app_assoc.
Qed.

Lemma collect_same_key name (vs : list shape) :
  vs ≠ [] → collect ((λ p, (name, p)) <$> vs) = {[ name := vs ]}.
Proof.
  intros Hne. unfold collect. rewrite collect_step.
  destruct vs; [done|]. by rewrite lookup_empty, insert_empty.
Qed.

(** [sort_by_len] is a stable sort by decreasing length: its result is a
    permutation of the list, is sorted, and keeps the shapes of each length
    in the order they had. *)
Lemma insert_by_len_perm x v : insert_by_len x v ≡ₚ x :: v.
Proof.
  induction v as [|y v IH]; simpl; [done|].
  case_decide; [|done]. by rewrite IH, Permutation_swap.
Qed.

Lemma sort_by_len_perm v : sort_by_len v ≡ₚ v.
Proof.
  induction v as [|x v IH]; [done|].
  unfold sort_by_len in *. simpl. by rewrite insert_by_len_perm, IH.
Qed.

Lemma insert_by_len_sorted x v :
  Sorted longer_or_equal v → Sorted longer_or_equal (insert_by_len x v).
Proof.
  induction 1 as [|y v Hv IH Hy]; simpl.
  - by repeat constructor.
  - case_decide as Hlt.
    + constructor; [done|].
      destruct Hy as [|z v Hz]; simpl.
      * constructor. unfold longer_or_equal. lia.
      * case_decide; constructor; unfold longer_or_equal in *; lia.
    + constructor; [by constructor|]. constructor. unfold longer_or_equal. lia.
Qed.

Lemma sort_by_len_sorted v : Sorted longer_or_equal (sort_by_len v).
Proof.
  induction v as [|x v IH]; [constructor|].
  unfold sort_by_len in *. simpl. by apply insert_by_len_sorted.
Qed.

Lemma insert_by_len_stable n x v :
  Sorted longer_or_equal v →
  filter (λ s, length s = n) (insert_by_len x v) =
  filter (λ s, length s = n) (x :: v).
Proof.
  induction v as [|y v IH]; intros Hv; simpl; [done|].
  case_decide as Hlt; [|done].
  apply Sorted_inv in Hv as [Hv _].
  rewrite !filter_cons, IH by done. rewrite filter_cons.
  repeat case_decide; (done || lia).
Qed.

Lemma sort_by_len_stable n v :
  filter (λ s, length s = n) (sort_by_len v) = filter (λ s, length s = n) v.
Proof.
  induction v as [|x v IH]; [done|].
  unfold sort_by_len in *. simpl.
  rewrite insert_by_len_stable by apply sort_by_len_sorted.
  by rewrite !filter_cons, IH.
Qed.

(** In particular shapes of one length keep their order. *)
Lemma sort_by_len_same_length (vs : list shape) :
  (∀ a b, a ∈ vs → b ∈ vs → length a = length b) → sort_by_len vs = vs.
Proof.
  induction vs as [|x vs IH]; intros Hlen; [done|].
  unfold sort_by_len in *. simpl. rewrite IH.
  - destruct vs as [|y vs]; [done|]. simpl.
    destruct (decide (length x < length y)) as [Hlt|]; [|done].
    rewrite (Hlen x y) in Hlt; [lia|set_solver..].
  - intros a b Ha Hb. apply Hlen; set_solver.
Qed.

(** ** The end-to-end example (C1) *)

(** C1, as the code has it: parsing the minimal document with the one
    record [label[x,y;label]] gives the table with the one key [label] and
    one shape of two elements, the group of [(x, number)] and [(y, number)]
    followed by the parameter [(label, string)]; the parameters that a comma
    separates form a group. *)
Theorem C1_label_end_to_end :
  parse label_document =
  Ok {[ "label" := [[Group [Param "x" "number"; Param "y" "number"];
                     Param "label" "string"]] ]}.
Proof. vm_compute. reflexivity. Qed.

(** C1 as stated fails: the shape of [label] is not the flat list of the
    three parameters. *)
Lemma C1_counterexample :
  ∃ table,
    parse label_document = Ok table ∧
    table ≠ {[ "label" := [[Param "x" "number"; Param "y" "number";
                            Param "label" "string"]] ]}.
Proof.
  eexists. split; [vm_compute; reflexivity|].
  intros Heq. apply (f_equal (λ m : gmap string (list shape), m !! "label")) in Heq.
  vm_compute in Heq. discriminate.
Qed.

(** ** The repeating-pair shorthand (C2) *)

(** C2, as the code has it: on [x1,y1;x2,y2;...] the workaround drops the
    group of [x2] and [y2] and makes the group of [x1] and [y1] the variadic
    unit after cutting two characters off its first name; no name is
    classified again, so the result is the one-element shape with the variadic
    group of [("", string)] and [("y1", string)].  The two characters are
    those of a name such as [type_1]: on the signature of [tablecolumns],
    where the number is a word of its own, the first name becomes [type]. *)
Theorem C2_repeating_pair :
  _fix_param (Str.split ";" "x1,y1;x2,y2;...") =
    Ok [Variadic (Group [Param "" "string"; Param "y1" "string"])] ∧
  _fix_param
    (Str.split ";"
       "<type 1>,<opt 1a>,<opt 1b>,...;<type 2>,<opt 2a>,<opt 2b>;...") =
    Ok [Variadic (Group [Param "type" "string";
                         Variadic (Param "opt" "table")])].
Proof. split; vm_compute; reflexivity. Qed.

(** C2 as stated fails: the unit is not the group of [(x, number)] and
    [(y, number)]. *)
Lemma C2_counterexample :
  ∃ sh,
    _fix_param (Str.split ";" "x1,y1;x2,y2;...") = Ok sh ∧
    sh ≠ [Variadic (Group [Param "x" "number"; Param "y" "number"])].
Proof. eexists. split; [vm_compute; reflexivity|]. discriminate. Qed.

(** ** The section extractor (C3) *)

Lemma after_heading_absent data :
  (¬ ∃ pre post, data = pre +:+ elements_heading +:+ post) →
  after_heading data = Ok data.
Proof.
  intros Habs. unfold after_heading, Str.split1.
  destruct (Str.partition elements_heading data) as [[a b]|] eqn:Hp; [|done].
  destruct Habs. apply partition_sound in Hp. eauto.
Qed.

Lemma after_heading_prepend data :
  after_heading (elements_heading +:+ data) = Ok data.
Proof. reflexivity. Qed.

Lemma elements_section_total data : ∃ s, elements_section data = Ok s.
Proof.
  unfold elements_section, after_heading, before_next_heading,
    without_last_line, Str.split1, Str.rsplit1.
  destruct (Str.partition elements_heading data) as [[a b]|]; simpl.
  - destruct (Str.partition next_heading b) as [[a' b']|]; simpl.
    + destruct (Str.rpartition nl a') as [[? ?]|]; simpl; eauto.
    + destruct (Str.rpartition nl b) as [[? ?]|]; simpl; eauto.
  - destruct (Str.partition next_heading data) as [[a' b']|]; simpl.
    + destruct (Str.rpartition nl a') as [[? ?]|]; simpl; eauto.
    + destruct (Str.rpartition nl data) as [[? ?]|]; simpl; eauto.
Qed.

(** C3, as the code has it: the section extractor never fails, whether the
    elements heading occurs in the document or not; when it does not occur,
    the whole document is taken as the text after the heading, and the run
    goes on as for the same document with the heading put in front of it. *)
Theorem C3_section_extractor_never_fails (data : string) :
  (∃ s, elements_section data = Ok s) ∧
  ((¬ ∃ pre post, data = pre +:+ elements_heading +:+ post) →
   after_heading data = Ok data ∧
   parse data = parse (elements_heading +:+ data)).
Proof.
  split; [apply elements_section_total|].
  intros Habs. split; [by apply after_heading_absent|].
  unfold parse, _raw_parse, elements_section.
  by rewrite after_heading_absent, after_heading_prepend.
Qed.

(** C3 as stated fails: a document without the elements heading is parsed
    without any error and gives a table. *)
Lemma C3_counterexample :
  (¬ ∃ pre post, headless_document = pre +:+ elements_heading +:+ post) ∧
  parse headless_document =
    Ok {[ "label" := [[Group [Param "x" "number"; Param "y" "number"];
                       Param "label" "string"]] ]}.
Proof.
  split; [|vm_compute; reflexivity].
  intros H. apply contains_spec in H. vm_compute in H. discriminate.
Qed.

Lemma C3_witness :
  after_heading headless_document = Ok headless_document ∧
  parse headless_document = parse (elements_heading +:+ headless_document).
Proof.
  apply (proj2 (C3_section_extractor_never_fails headless_document)).
  intros H. apply contains_spec in H. vm_compute in H. discriminate.
Defined.

(** ** The hook of [bgcolor] (C4) *)

(** C4, as the code has it: for a shape of [n >= 1] parameters the hook of
    [bgcolor] yields exactly [n] variants, the full shape first and then the
    shape with its last [i] parameters removed for [i] from [1] to [n - 1];
    the shortest variant has one parameter.  The element gets these variants
    and no other, last first. *)
Theorem C4_bgcolor_variant_count (params : shape) :
  1 ≤ length params →
  ∃ variants,
    run_hook _bgcolor_hook params = Ok (variants, params) ∧
    length variants = length params ∧
    (∀ i, i < length params →
          variants !! i = Some (take (length params - i) params)) ∧
    ∀ lines, element_shapes "bgcolor" params lines =
             Ok ((λ p, ("bgcolor", p)) <$> reverse variants).
Proof.
  intros Hlen. eexists. split; [apply run_bgcolor_hook|]. split; [|split].
  - simpl. rewrite length_fmap, length_seq. lia.
  - intros [|i] Hi; simpl.
    + by rewrite Nat.sub_0_r, firstn_all.
    + rewrite list_lookup_fmap, lookup_seq_lt by lia. done.
  - intros lines. apply (element_shapes_exclusive _ _bgcolor_hook _ _ _ params).
    + reflexivity.
    + decide_closed.
    + apply run_bgcolor_hook.
Qed.

Lemma C4_witness :
  ∃ variants,
    run_hook _bgcolor_hook [Param "bgcolor" "string"] =
      Ok (variants, [Param "bgcolor" "string"]) ∧
    length variants = 1 ∧
    (∀ i, i < 1 →
          variants !! i = Some (take (1 - i) [Param "bgcolor" "string"])) ∧
    ∀ lines, element_shapes "bgcolor" [Param "bgcolor" "string"] lines =
             Ok ((λ p, ("bgcolor", p)) <$> reverse variants).
Proof.
  apply (C4_bgcolor_variant_count [Param "bgcolor" "string"]). simpl. lia.
Defined.

(** C4 as stated fails: the three parameters of [bgcolor] give three
    variants, not four. *)
Lemma C4_counterexample :
  ∃ params variants,
    _fix_param (Str.split ";" "<bgcolor>;<fullscreen>;<fbgcolor>") =
      Ok params ∧
    length params = 3 ∧
    run_hook _bgcolor_hook params = Ok (variants, params) ∧
    length variants ≠ length params + 1.
Proof.
  eexists _, _. split; [vm_compute; reflexivity|].
  split; [reflexivity|]. split; [vm_compute; reflexivity|]. simpl. lia.
Qed.

(** ** The hook of [size] (C5) *)

(** C5, as the code has it: for [size] the hook yields exactly two shapes,
    the parsed shape and the shape whose one element is the group of
    [(w, number)] and [(h, number)]; the element gets these two shapes and no
    other, the second one first. *)
Theorem C5_size_shapes (params : shape) (lines : list string) :
  run_hook _size_hook params =
    Ok ([params; [Group [Param "w" "number"; Param "h" "number"]]], params) ∧
  element_shapes "size" params lines =
    Ok [("size", [Group [Param "w" "number"; Param "h" "number"]]);
        ("size", params)].
Proof.
  assert (run_hook _size_hook params =
    Ok ([params; [Group [Param "w" "number"; Param "h" "number"]]], params))
    as Hrun by reflexivity.
  split; [done|].
  assert ("size" ∉ _passive_hooks) as Hex by decide_closed.
  assert (_hooks !! "size" = Some _size_hook) as Hh by reflexivity.
  by rewrite (element_shapes_exclusive _ _ _ lines _ _ Hh Hex Hrun).
Qed.

(** C5 as stated fails: the table of the record of [size] has two shapes,
    and the flat shape of the parameters [w] and [h] is not one of them. *)
Lemma C5_counterexample :
  ∃ shapes,
    parse size_document = Ok {[ "size" := shapes ]} ∧
    length shapes = 2 ∧
    [Param "w" "number"; Param "h" "number"] ∉ shapes.
Proof.
  exists [[Group [Param "w" "number"; Param "h" "number"]];
          [Group [Param "w" "number"; Param "h" "number";
                  Param "fixed_size" "boolean"]]].
  split; [vm_compute; reflexivity|]. split; [reflexivity|].
  rewrite !elem_of_cons, elem_of_nil. intros [|[|[]]]; discriminate.
Qed.

(** ** The optional-suffix expander (C6, C7) *)

Lemma is_optional_spec opt x :
  is_optional opt x = true ↔ ∃ name type, x = Param name type ∧ name ∈ opt.
Proof.
  destruct x as [n t|l|u]; simpl.
  - rewrite bool_decide_eq_true. split; [by eauto|].
    by intros (? & ? & [= <- <-] & ?).
  - split; [done|]. by intros (? & ? & ? & ?).
  - split; [done|]. by intros (? & ? & ? & ?).
Qed.

(** C6: the expander yields the input shape first and unchanged; every
    later shape is the one before it without its last element, and that
    element is a parameter [(name, type)] whose name is in the optional set
    (so never a group or a variadic tail); and the last shape it yields does
    not end in such a parameter: the expansion stops at the first trailing
    element that is not an optional parameter. *)
Theorem C6_optional_suffix_expander (opt : gset string) (params : shape) :
  head (optional_variants opt params) = Some params ∧
  (∀ i s s',
     optional_variants opt params !! i = Some s →
     optional_variants opt params !! S i = Some s' →
     ∃ name type, s = s' ++ [Param name type] ∧ name ∈ opt) ∧
  (∀ s x,
     last (optional_variants opt params) = Some s → last s = Some x →
     ¬ ∃ name type, x = Param name type ∧ name ∈ opt).
Proof.
  induction params as [|x params IH] using rev_ind.
  - rewrite optional_variants_nil. split; [done|]. split.
    + intros [|i] s s'; simpl; [done|]. by rewrite lookup_nil.
    + intros s x [= <-]. done.
  - rewrite optional_variants_snoc.
    destruct (is_optional opt x) eqn:Hopt.
    + destruct IH as (Hhead & Hstep & Hlast).
      split; [done|]. split.
      * intros [|i] s s'; simpl.
        -- intros [= <-] Hs'.
           destruct (optional_variants opt params) as [|v vs] eqn:Hv;
             simplify_eq/=.
           apply is_optional_spec in Hopt as (n & t & -> & Hin). eauto.
        -- apply Hstep.
      * intros s y. rewrite last_cons.
        destruct (last (optional_variants opt params)) as [s0|] eqn:Hl.
        -- intros [= <-]. by apply Hlast.
        -- apply last_None in Hl. by rewrite Hl in Hhead.
    + split; [done|]. split.
      * intros [|i] s s'; simpl; [done|]. by rewrite lookup_nil.
      * intros s y [= <-]. rewrite last_snoc. intros [= <-] Hy.
        apply is_optional_spec in Hy. congruence.
Qed.

Lemma C6_witness :
  ∃ name type,
    [Param "a" "string"; Param "b" "string"] =
      [Param "a" "string"] ++ [Param name type] ∧
    name ∈ ({["b"]} : gset string).
Proof.
  apply (proj1 (proj2 (C6_optional_suffix_expander {["b"]}
           [Param "a" "string"; Param "b" "string"])) 0);
    vm_compute; reflexivity.
Defined.

(** C7, as the code has it: the expander yields the empty shape exactly when
    every element of the input shape is a parameter whose name is in the
    optional set (the empty input included); a shape with an element that is
    not such a parameter never gives the empty shape. *)
Theorem C7_empty_shape_iff_all_optional (opt : gset string) (params : shape) :
  [] ∈ optional_variants opt params ↔
  Forall (λ x, ∃ name type, x = Param name type ∧ name ∈ opt) params.
Proof.
  induction params as [|x params IH] using rev_ind.
  - rewrite optional_variants_nil. split; [by constructor|set_solver].
  - rewrite optional_variants_snoc, Forall_app, Forall_singleton.
    rewrite <-is_optional_spec.
    destruct (is_optional opt x).
    + rewrite elem_of_cons, IH. split.
      * intros [Hnil|?]; [by destruct params|done].
      * intros [? _]. by right.
    + rewrite list_elem_of_singleton. split.
      * intros Hnil. by destruct params.
      * by intros [_ ?].
Qed.

(** C7 as stated fails: the one parameter of [foo] is optional, and the
    shapes of [foo] are the one-parameter shape and the empty shape. *)
Lemma C7_counterexample :
  optional_variants {["a"]} [Param "a" "string"] = [[Param "a" "string"]; []] ∧
  parse optional_document = Ok {[ "foo" := [[Param "a" "string"]; []] ]}.
Proof. split; vm_compute; reflexivity. Qed.

(** ** The order of the variants of a hook (C8) *)

(** C8, as the code has it: the copies of what a hook yields are handed on
    last first and are not put back in the order of the yields.  For an
    element with a hook that is not passive, whose variants all have the same
    length, the table therefore lists the variants in the reverse of the
    order in which the hook yielded them: the stable sort keeps the order in
    which they were collected. *)
Theorem C8_hook_variants_keep_reverse_order
    name h (params : shape) (lines : list string) yielded params' :
  _hooks !! name = Some h → name ∉ _passive_hooks →
  run_hook h params = Ok (yielded, params') →
  yielded ≠ [] →
  (∀ a b, a ∈ yielded → b ∈ yielded → length a = length b) →
  ∃ pairs,
    element_shapes name params lines = Ok pairs ∧
    pairs = (λ p, (name, p)) <$> reverse yielded ∧
    sort_by_len <$> collect pairs = {[ name := reverse yielded ]}.
Proof.
  intros Hh Hex Hrun Hne Hlen. eexists. split; [|split; [reflexivity|]].
  { by apply (element_shapes_exclusive _ h _ _ _ params'). }
  rewrite collect_same_key, map_fmap_singleton.
  - rewrite sort_by_len_same_length; [done|].
    intros a b. rewrite !elem_of_reverse. apply Hlen.
  - intros Hrev. apply Hne. apply (f_equal reverse) in Hrev.
    by rewrite reverse_involutive in Hrev.
Qed.

Lemma C8_witness :
  ∃ pairs,
    element_shapes "style" style_params [] = Ok pairs ∧
    pairs = (λ p, ("style", p)) <$>
      reverse
        [ <[0:=Group [Param "name" "string"]]> style_params;
          <[0:=Group [Variadic (Param "selectors" "string")]]> style_params ] ∧
    sort_by_len <$> collect pairs =
      {[ "style" :=
           reverse
             [ <[0:=Group [Param "name" "string"]]> style_params;
               <[0:=Group [Variadic (Param "selectors" "string")]]>
                 style_params ] ]}.
Proof.
  apply (C8_hook_variants_keep_reverse_order "style" _style_hook
           style_params [] _
           (<[0:=Group [Variadic (Param "selectors" "string")]]> style_params)).
  - reflexivity.
  - decide_closed.
  - reflexivity.
  - discriminate.
  - intros a b Ha Hb.
    apply list_elem_of_In in Ha, Hb. simpl in Ha, Hb.
    destruct Ha as [<-|[<-|[]]], Hb as [<-|[<-|[]]]; reflexivity.
Defined.

(** C8 as stated fails: for the record of [style] the hook yields the form
    with [name] first and the form with [selectors] second, and the table
    lists the form with [selectors] first. *)
Lemma C8_counterexample :
  ∃ params first second,
    _fix_param
      (Str.split ";" "<selector 1>,<selector 2>,...;<prop1>;<prop2>;...") =
      Ok params ∧
    run_hook _style_hook params = Ok ([first; second], second) ∧
    first ≠ second ∧
    parse style_document = Ok {[ "style" := [second; first] ]}.
Proof.
  eexists _, _, _. split; [vm_compute; reflexivity|].
  split; [vm_compute; reflexivity|]. split; [discriminate|].
  vm_compute. reflexivity.
Qed.

(** ** The bare ellipsis (C9) *)

Lemma fix_param_loop_units rec res pre units tokens :
  Forall2 (λ q u, Str.strip q ≠ "..." ∧ rec (Str.strip q) = Ok u) pre units →
  fix_param_loop rec res (pre ++ tokens) =
  fix_param_loop rec (res ++ units) tokens.
Proof.
  intros Hpre. revert res.
  induction Hpre as [|q u pre units [Hq Hu] _ IH]; intros res; simpl.
  - by rewrite app_nil_r.
  - rewrite decide_True by done. rewrite Hu. simpl.
    by rewrite IH, <-app_assoc.
Qed.

Lemma fix_param_loop_ellipsis rec res p rest :
  Str.strip p = "..." →
  fix_param_loop rec res (p :: rest) = fix_param_ellipsis rec res.
Proof. intros Hp. simpl. by rewrite decide_False by (by rewrite Hp; intros []). Qed.

(** C9: a token list whose first token is ['...'] (after [strip]) makes the
    parser fail with the [AssertionError] of [assert res], at the top level
    and in the list of a comma-separated token alike; and when one or more
    tokens that parse to units precede the ['...'], the parser does not fail
    with that error. *)
Theorem C9_bare_ellipsis :
  (∀ rec p rest,
     Str.strip p = "..." →
     fix_param_loop rec [] (p :: rest) = Raise (AssertionError 56)) ∧
  (∀ p rest,
     Str.strip p = "..." →
     _fix_param (p :: rest) = Raise (AssertionError 56)) ∧
  (∀ pre units p rest,
     pre ≠ [] →
     Forall2 (λ q u, Str.strip q ≠ "..." ∧ _fix_param_str (Str.strip q) = Ok u)
       pre units →
     Str.strip p = "..." →
     _fix_param (pre ++ p :: rest) ≠ Raise (AssertionError 56)).
Proof.
  split; [|split].
  - intros rec p rest Hp. by rewrite fix_param_loop_ellipsis.
  - intros p rest Hp. unfold _fix_param. by rewrite fix_param_loop_ellipsis.
  - intros pre units p rest Hne Hpre Hp. unfold _fix_param.
    rewrite (fix_param_loop_units _ _ _ units) by done.
    rewrite fix_param_loop_ellipsis by done. simpl.
    apply fix_param_ellipsis_not_bare.
    + destruct Hpre; [done|discriminate].
    + clear Hne. induction Hpre as [|q u pre units [_ Hu] _ IH]; constructor.
      * intros n t ->. by apply (fix_param_str_param _ _ _ Hu).
      * done.
Qed.

Lemma C9_witness :
  _fix_param ["..."; "a"] = Raise (AssertionError 56) ∧
  _fix_param ["<opt 1>"; "<opt 2>"; "..."] ≠ Raise (AssertionError 56).
Proof.
  split.
  - apply (proj1 (proj2 C9_bare_ellipsis)). reflexivity.
  - apply (proj2 (proj2 C9_bare_ellipsis) ["<opt 1>"; "<opt 2>"]
             [Param "opt_1" "string"; Param "opt_2" "string"] "..." []).
    + discriminate.
    + repeat constructor; try discriminate; vm_compute; reflexivity.
    + reflexivity.
Defined.

(** ** The parameter classifier (C10) *)

Lemma known_null_is_empty : map_Forall (λ k v, v = "null" → k = "") _known.
Proof. decide_closed. Qed.

Lemma known_keys :
  map_Forall (λ k (_ : string),
    k = "" ∨
    k ∈ number_names ++ boolean_names ++ fullscreen_names ++ table_names)
    _known.
Proof. decide_closed. Qed.

(** C10: the classifier gives the empty name the tag [null], the empty name
    is the only name with that tag, and a name that is not empty and in none
    of the number, boolean, fullscreen and table sets gets the tag
    [string]. *)
Theorem C10_null_only_for_empty_name :
  classify "" = "null" ∧
  (∀ n, classify n = "null" ↔ n = "") ∧
  (∀ n, n ≠ "" →
        n ∉ number_names ++ boolean_names ++ fullscreen_names ++ table_names →
        classify n = "string").
Proof.
  split; [reflexivity|]. split.
  - intros n. split; [|by intros ->].
    unfold classify. destruct (_known !! n) as [v|] eqn:Hn; simpl.
    + intros ->. by apply (known_null_is_empty n "null").
    + discriminate.
  - intros n Hne Hnot. unfold classify.
    destruct (_known !! n) as [v|] eqn:Hn; simpl; [|done].
    destruct (known_keys n v Hn); done.
Qed.

Lemma C10_witness : classify "label" = "string".
Proof.
  apply (proj2 (proj2 C10_null_only_for_empty_name) "label").
  - discriminate.
  - decide_closed.
Defined.

(** * Further properties of the code *)

(** ** More facts about the string operations *)

Lemma lower_char_idemp c : Str.lower_char (Str.lower_char c) = Str.lower_char c.
Proof. destruct c as [[] [] [] [] [] [] [] []]; vm_compute; reflexivity. Qed.

Lemma all_chars_lstrip_by P f s :
  all_chars P s = true → all_chars P (Str.lstrip_by f s) = true.
Proof.
  induction s as [|c s IH]; simpl; [done|].
  intros [Hc Hs]%andb_true_iff. destruct (f c); [by apply IH|].
  simpl. by rewrite Hc, Hs.
Qed.

Lemma all_chars_rstrip_by P f s :
  all_chars P s = true → all_chars P (Str.rstrip_by f s) = true.
Proof.
  induction s as [|c s IH]; simpl; [done|].
  intros [Hc Hs]%andb_true_iff. specialize (IH Hs).
  destruct (Str.rstrip_by f s) as [|d r].
  - destruct (f c); [done|]. simpl. by rewrite Hc.
  - cbn [all_chars] in *. by rewrite Hc, IH.
Qed.

Lemma all_chars_map P f s :
  (∀ c, P (f c) = true) → all_chars P (Str.map f s) = true.
Proof. intros H. induction s as [|c s IH]; simpl; [done|]. by rewrite H, IH. Qed.

Lemma str_length_app s t :
  String.length (s +:+ t) = String.length s + String.length t.
Proof.
  induction s as [|c s IH]; [done|]. rewrite append_cons. simpl. by rewrite IH.
Qed.

Lemma append_assoc s t u : (s +:+ t) +:+ u = s +:+ t +:+ u.
Proof.
  induction s as [|c s IH]; [done|]. rewrite !append_cons. by rewrite IH.
Qed.

Lemma take_append s t : Str.take (String.length s) (s +:+ t) = s.
Proof.
  induction s as [|c s IH]; [by destruct t|].
  rewrite append_cons. simpl. by rewrite IH.
Qed.

Lemma drop_last_append s t : Str.drop_last (String.length t) (s +:+ t) = s.
Proof.
  unfold Str.drop_last. rewrite str_length_app.
  replace (String.length s + String.length t - String.length t)
    with (String.length s) by lia.
  apply take_append.
Qed.

Lemma endswith_append s p : Str.endswith p (s +:+ p) = true.
Proof.
  unfold Str.endswith. rewrite str_length_app.
  rewrite decide_True by lia.
  replace (String.length s + String.length p - String.length p)
    with (String.length s) by lia.
  rewrite drop_append. by apply bool_decide_eq_true_2.
Qed.

(** The first and the last occurrence of a one-character separator. *)
Lemma partition_char_first c a b :
  Str.mem c a = false →
  Str.partition (String c "") (a +:+ String c b) = Some (a, b).
Proof.
  induction a as [|d a IH]; intros Ha.
  - rewrite append_nil_l. simpl. rewrite decide_True by done. by destruct b.
  - rewrite append_cons. simpl in *.
    destruct (decide (c = d)); [done|]. by rewrite IH.
Qed.

Lemma rpartition_None c s :
  Str.mem c s = false → Str.rpartition (String c "") s = None.
Proof.
  induction s as [|d s IH]; [done|]. simpl.
  destruct (decide (c = d)); [done|]. intros Hs. by rewrite IH.
Qed.

Lemma rpartition_char_last c a b :
  Str.mem c b = false →
  Str.rpartition (String c "") (a +:+ String c b) = Some (a, b).
Proof.
  intros Hb. induction a as [|d a IH].
  - rewrite append_nil_l. simpl. rewrite rpartition_None by done.
    rewrite decide_True by done. by destruct b.
  - rewrite append_cons. simpl. by rewrite IH.
Qed.

(** ** The normalized names (X1) *)

Lemma aliases_normal :
  map_Forall (λ _ v, all_chars normal_char v = true) _aliases.
Proof. decide_closed. Qed.

Lemma all_chars_normal v :
  all_chars normal_char v = true → Str.lower v = v ∧ Str.mem " " v = false.
Proof.
  induction v as [|c v IH]; [done|].
  cbn [all_chars]. intros [Hc Hv]%andb_true_iff.
  destruct (IH Hv) as [IH1 IH2].
  apply andb_true_iff in Hc
    as [Hc1%bool_decide_eq_true Hc2%bool_decide_eq_true].
  unfold Str.lower in *. simpl. rewrite IH1, Hc1. split; [done|].
  by rewrite decide_False by done.
Qed.

(** X1: a name that [_fix_param_name] returns is never ['...'], is in lower
    case and holds no space. *)
Theorem fix_param_name_normal (s n : string) :
  _fix_param_name s = Ok n →
  n ≠ "..." ∧ Str.lower n = n ∧ Str.mem " " n = false.
Proof.
  unfold _fix_param_name.
  set (p := Str.replace_char _ _ _).
  assert (all_chars normal_char p = true) as Hp.
  { unfold p, Str.replace_char, Str.strip_chars, Str.strip, Str.strip_by.
    set (q := Str.rstrip_by _ (Str.lstrip_by _ (Str.rstrip_by _ _))).
    assert (all_chars is_lower_char q = true) as Hq.
    { unfold q. do 2 (apply all_chars_rstrip_by, all_chars_lstrip_by).
      apply all_chars_map. intros c.
      apply bool_decide_eq_true_2, lower_char_idemp. }
    clearbody q. induction q as [|c q IH]; [done|].
    cbn [all_chars Str.map] in *. apply andb_true_iff in Hq as [Hc Hq].
    rewrite IH by done. rewrite andb_true_r.
    unfold normal_char. case_decide; subst; [done|].
    by rewrite Hc, bool_decide_eq_true_2. }
  destruct (_aliases !! p) as [v|] eqn:Hv; simpl;
    case_bool_decide; simpl; try done; intros [= <-]; (split; [done|]).
  - by apply all_chars_normal, (aliases_normal p v).
  - by apply all_chars_normal.
Qed.

Lemma fix_param_name_normal_witness :
  "selected_idx" ≠ "..." ∧ Str.lower "selected_idx" = "selected_idx" ∧
  Str.mem " " "selected_idx" = false.
Proof.
  apply (fix_param_name_normal " <Selected Idx> "). vm_compute. reflexivity.
Defined.

(** ** The table of known names (X2, X3) *)

Lemma make_known_inner (known : gmap string string) k (v : list string) i :
  foldl (λ known i, <[i:=k]> known) known v !! i =
  if decide (i ∈ v) then Some k else known !! i.
Proof.
  revert known. induction v as [|j v IH]; intros known; cbn [foldl].
  - case_decide as H; [by apply elem_of_nil in H|done].
  - rewrite IH. destruct (decide (i = j)) as [->|Hne].
    + rewrite lookup_insert_eq.
      rewrite (decide_True (P := j ∈ j :: v)) by by left.
      by destruct (decide (j ∈ v)).
    + rewrite lookup_insert_ne by done.
      destruct (decide (i ∈ v)) as [Hin|Hnin].
      * by rewrite decide_True by by right.
      * rewrite decide_False; [done|]. rewrite elem_of_cons. by intros [|].
Qed.

Lemma make_known_fold (known : gmap string string) kwargs i :
  foldl (λ known '(k, v), foldl (λ known i, <[i:=k]> known) known v)
        known kwargs !! i =
  match last (filter (λ kv : string * list string, i ∈ kv.2) kwargs) with
  | Some kv => Some kv.1
  | None => known !! i
  end.
Proof.
  revert known. induction kwargs as [|[k v] kwargs IH]; intros known; [done|].
  cbn [foldl]. rewrite IH, filter_cons. simpl.
  destruct (decide (i ∈ v)) as [Hin|Hnin].
  - rewrite last_cons.
    destruct (last (filter _ kwargs)); [done|].
    simpl. rewrite make_known_inner. by rewrite decide_True.
  - destruct (last (filter _ kwargs)); [done|].
    rewrite make_known_inner. by rewrite decide_False.
Qed.

(** X2: in the table that [_make_known] builds, a name is mapped to the
    keyword of the last keyword argument whose tuple holds it, and a name
    that no tuple holds is not in the table. *)
Theorem make_known_lookup (kwargs : list (string * list string)) (i : string) :
  _make_known kwargs !! i =
  fst <$> last (filter (λ kv : string * list string, i ∈ kv.2) kwargs).
Proof.
  unfold _make_known. rewrite make_known_fold.
  by destruct (last _).
Qed.

Lemma known_tags :
  map_Forall (λ (_ v : string),
    v = "number" ∨ v = "boolean" ∨ v = "fullscreen" ∨ v = "table" ∨
    v = "null") _known.
Proof. decide_closed. Qed.

(** X3: the type that the classifier gives a name is one of [number],
    [boolean], [fullscreen], [table], [null] and [string], and so never the
    marker ['...'] of a variadic tail. *)
Theorem classify_tags (n : string) :
  (classify n = "number" ∨ classify n = "boolean" ∨
   classify n = "fullscreen" ∨ classify n = "table" ∨ classify n = "null" ∨
   classify n = "string") ∧
  classify n ≠ "...".
Proof.
  unfold classify. destruct (_known !! n) as [v|] eqn:Hn; simpl.
  - destruct (known_tags n v Hn) as [->|[->|[->|[->| ->]]]]; auto 10.
  - auto 10.
Qed.

(** ** The group name (X4) *)

(** X4: the group name of a parameter, whose type is not ['...'], is its
    name without the last character, cut at the last underscore and without
    trailing underscores: the names [base_<mid><d>], where [mid] has no
    underscore, have the group name of [base], and a name [<mid><d>] without
    an underscore before its last character has the group name [mid]. *)
Theorem get_name_numbered (base mid : string) (d : ascii) (t : string) :
  t ≠ "..." → Str.mem "_" mid = false →
  _get_name (Param (base +:+ "_" +:+ mid +:+ String d "") t) =
    Str.rstrip_chars "_" base ∧
  _get_name (Param (mid +:+ String d "") t) = Str.rstrip_chars "_" mid.
Proof.
  intros Ht Hmid. simpl. rewrite !decide_False by done.
  split.
  - replace (base +:+ "_" +:+ mid +:+ String d "")
      with ((base +:+ "_" +:+ mid) +:+ String d "")
      by by rewrite !append_assoc.
    rewrite (drop_last_append _ (String d "")).
    unfold Str.rsplit1.
    change ("_" +:+ mid) with (String "_" mid).
    change (Str.rpartition "_" ?s) with (Str.rpartition (String "_" "") s).
    by rewrite rpartition_char_last.
  - rewrite (drop_last_append _ (String d "")).
    unfold Str.rsplit1.
    change (Str.rpartition "_" ?s) with (Str.rpartition (String "_" "") s).
    by rewrite rpartition_None.
Qed.

Lemma get_name_numbered_witness :
  _get_name (Param ("opt" +:+ "_" +:+ "1" +:+ String "a" "") "string") =
    Str.rstrip_chars "_" "opt" ∧
  _get_name (Param ("1" +:+ String "a" "") "string") =
    Str.rstrip_chars "_" "1".
Proof. apply get_name_numbered; [discriminate|reflexivity]. Defined.

(** ** The grammar parser without and after the ellipsis (X5, X6) *)

Lemma fix_param_loop_no_ellipsis rec res tokens :
  Forall (λ p, Str.strip p ≠ "...") tokens →
  fix_param_loop rec res tokens =
  (units ← mapM (λ p, rec (Str.strip p)) tokens; Ok (res ++ units)).
Proof.
  intros Htok. revert res. induction Htok as [|p tokens Hp _ IH]; intros res.
  - simpl. by rewrite app_nil_r.
  - cbn [fix_param_loop mapM]. rewrite decide_True by done.
    destruct (rec (Str.strip p)) as [u|e]; simpl; [|done].
    rewrite IH. destruct (mapM _ tokens) as [us|e]; simpl; [|done].
    by rewrite <-app_assoc.
Qed.

Lemma fix_param_str_not_variadic s u : _fix_param_str s = Ok u → not_variadic u.
Proof.
  unfold _fix_param_str, fix_param_atom. destruct (Str.contains "," s).
  - destruct (fix_param_loop _ _ _); simpl; [|done]. by intros [= <-].
  - destruct (_fix_param_name s); simpl; [|done]. by intros [= <-].
Qed.

Lemma mapM_result_Forall2 {A B} (f : A → result B) l k :
  mapM f l = Ok k → Forall2 (λ x y, f x = Ok y) l k.
Proof.
  revert k. induction l as [|x l IH]; intros k; cbn [mapM].
  - intros [= <-]. constructor.
  - destruct (f x) as [y|] eqn:Hy; simpl; [|done].
    destruct (mapM f l) as [ys|]; simpl; [|done].
    intros [= <-]. constructor; [done|]. by apply IH.
Qed.

(** X5: on a token list none of whose tokens is ['...'], [_fix_param]
    parses the tokens one by one, in order: its result is that of mapping
    [_fix_param] over the stripped tokens, so a shape it returns has one
    element per token and no variadic tail among its elements. *)
Theorem fix_param_without_ellipsis (tokens : list string) :
  Forall (λ p, Str.strip p ≠ "...") tokens →
  _fix_param tokens = mapM (λ p, _fix_param_str (Str.strip p)) tokens ∧
  ∀ sh, _fix_param tokens = Ok sh →
        length sh = length tokens ∧ Forall not_variadic sh.
Proof.
  intros Htok. unfold _fix_param.
  rewrite fix_param_loop_no_ellipsis by done.
  assert ((units ← mapM (λ p, _fix_param_str (Str.strip p)) tokens; Ok ([] ++ units)) =
          mapM (λ p, _fix_param_str (Str.strip p)) tokens) as -> by by destruct (mapM _ _).
  split; [done|]. intros sh Hsh. apply mapM_result_Forall2 in Hsh.
  split; [symmetry; by eapply Forall2_length|].
  clear Htok. induction Hsh as [|p u tokens sh Hu _ IH]; constructor; [|done].
  by apply (fix_param_str_not_variadic _ _ Hu).
Qed.

Lemma fix_param_without_ellipsis_witness :
  _fix_param ["x,y"; "label"] =
    mapM (λ p, _fix_param_str (Str.strip p)) ["x,y"; "label"] ∧
  ∀ sh, _fix_param ["x,y"; "label"] = Ok sh →
        length sh = length ["x,y"; "label"] ∧ Forall not_variadic sh.
Proof.
  apply (fix_param_without_ellipsis ["x,y"; "label"]).
  repeat constructor; vm_compute; discriminate.
Defined.

(** X6: the tokens after the first ['...'] are never looked at: they change
    neither the result nor the error. *)
Theorem fix_param_after_ellipsis (pre : list string) (p : string) (rest : list string) :
  Str.strip p = "..." →
  _fix_param (pre ++ p :: rest) = _fix_param (pre ++ [p]).
Proof.
  intros Hp. unfold _fix_param. generalize (@nil node) as res.
  induction pre as [|q pre IH]; intros res.
  - by rewrite !app_nil_l, !fix_param_loop_ellipsis.
  - rewrite <-!app_comm_cons. cbn [fix_param_loop]. case_decide; [|done].
    destruct (_fix_param_str (Str.strip q)); simpl; [|done]. apply IH.
Qed.

Lemma fix_param_after_ellipsis_witness :
  _fix_param (["<name>"; "<item 1>"; "<item 2>"] ++ " ..." :: ["<...>"; "x"]) =
  _fix_param (["<name>"; "<item 1>"; "<item 2>"] ++ [" ..."]).
Proof. apply fix_param_after_ellipsis. vm_compute. reflexivity. Defined.

(** ** The shape of what the grammar parser returns (X7, X8) *)

Lemma pop_Some {A} (l r : list A) x : pop l = Some (r, x) → l = r ++ [x].
Proof.
  destruct l as [|y l _] using rev_ind; [done|].
  rewrite pop_snoc. by intros [= <- <-].
Qed.

Lemma pop_while_take {A} (f : A → bool) l : ∃ n, pop_while f l = take n l.
Proof.
  induction l as [|x l [n IH]]; [by exists 0|]. simpl.
  destruct (pop_while f l) as [|y r] eqn:Hr.
  - destruct (f x); [by exists 0|by exists 1; destruct l].
  - exists (S n). simpl. by rewrite <-IH.
Qed.

Lemma fix_param_ellipsis_Ok rec res sh :
  fix_param_ellipsis rec res = Ok sh →
  ∃ n u, sh = take n res ++ [Variadic u] ∧
         (u ∈ res ∨ (∃ prev, prev ∈ res ∧ rename_first prev = Ok u) ∨
          ∃ name, rec name = Ok u).
Proof.
  unfold fix_param_ellipsis.
  destruct (assert_ 56 _); simpl; [|done].
  destruct (pop res) as [[r x]|] eqn:Hpop; [|done].
  apply pop_Some in Hpop as ->.
  destruct (workaround_applies r x) as [[]|]; simpl; [| |done].
  - destruct (pop r) as [[r' prev]|] eqn:Hpop'; [|done].
    apply pop_Some in Hpop' as ->.
    destruct (rename_first prev) as [u|] eqn:Hu; simpl; [|done].
    assert (_get_name u = "...") as Hname.
    { by destruct prev as [| [|[]] |]; simplify_eq/=. }
    rewrite Hname. rewrite decide_True by done. intros [= <-].
    exists (length r'), u. split.
    + by rewrite <-app_assoc, take_app_length.
    + right. left. exists prev. split; [|done]. set_solver.
  - case_decide.
    + intros [= <-]. exists (length r), x. split.
      * by rewrite take_app_length.
      * left. set_solver.
    + destruct (pop_while_take (λ n, bool_decide (_get_name n = _get_name x)) r)
        as [n Hn].
      destruct (rec (_get_name x)) as [u|] eqn:Hu; simpl; [|done].
      intros [= <-]. exists (n `min` length r), u. split.
      * rewrite Hn. f_equal. rewrite take_app_le by lia.
        by rewrite <-take_take, firstn_all.
      * right. right. eauto.
Qed.

Lemma fix_param_loop_Ok rec res tokens sh :
  fix_param_loop rec res tokens = Ok sh →
  ∃ units, Forall (made_by rec) units ∧
    ((sh = res ++ units ∧ length units = length tokens) ∨
     ∃ n u, sh = take n (res ++ units) ++ [Variadic u] ∧
       (u ∈ res ++ units ∨
        (∃ prev, prev ∈ res ++ units ∧ rename_first prev = Ok u) ∨
        made_by rec u)).
Proof.
  revert res. induction tokens as [|p tokens IH]; intros res; simpl.
  - intros [= <-]. exists []. split; [constructor|]. left. by rewrite app_nil_r.
  - case_decide.
    + destruct (rec (Str.strip p)) as [u|] eqn:Hu; simpl; [|done].
      intros (units & Hunits & Hsh)%IH. exists (u :: units).
      split; [constructor; [by eexists|done]|].
      rewrite <-app_assoc in Hsh. simpl in Hsh.
      destruct Hsh as [[-> Hlen]|Hsh]; [left|by right].
      split; [done|]. simpl. by rewrite Hlen.
    + intros (n & u & -> & Hu)%fix_param_ellipsis_Ok. exists [].
      split; [constructor|]. right. exists n, u. by rewrite app_nil_r.
Qed.

Lemma fix_param_loop_Raise rec res tokens e :
  fix_param_loop rec res tokens = Raise e →
  (∃ s, rec s = Raise e) ∨
  ∃ units, Forall (made_by rec) units ∧
           fix_param_ellipsis rec (res ++ units) = Raise e.
Proof.
  revert res. induction tokens as [|p tokens IH]; intros res; simpl; [done|].
  case_decide.
  - destruct (rec (Str.strip p)) as [u|e'] eqn:Hu; simpl.
    + intros [?|(units & Hunits & He)]%IH; [by left|]. right.
      exists (u :: units). split; [constructor; [by eexists|done]|].
      by rewrite <-app_assoc in He.
    + intros [= ->]. left. eauto.
  - intros He. right. exists []. split; [constructor|]. by rewrite app_nil_r.
Qed.

Lemma made_by_atom u : made_by fix_param_atom u → is_param u.
Proof.
  intros [s Hs]. unfold fix_param_atom in Hs.
  destruct (_fix_param_name s); simplify_eq/=. done.
Qed.

Lemma variadic_last_snoc r u :
  Forall not_variadic r → variadic_last (r ++ [u]).
Proof.
  intros Hr i v Hi. rewrite length_app. simpl.
  destruct (decide (i < length r)) as [Hlt|Hge].
  - rewrite lookup_app_l in Hi by done.
    by apply (Forall_lookup_1 _ _ _ _ Hr) in Hi.
  - apply lookup_lt_Some in Hi. rewrite length_app in Hi. simpl in Hi. lia.
Qed.

Lemma variadic_last_all r : Forall not_variadic r → variadic_last r.
Proof.
  intros Hr i v Hi. by apply (Forall_lookup_1 _ _ _ _ Hr) in Hi.
Qed.

(** The list of a comma-separated token. *)
Lemma inner_loop_Ok tokens items :
  tokens ≠ [] →
  fix_param_loop fix_param_atom [] tokens = Ok items →
  items ≠ [] ∧ Forall flat_item items ∧ variadic_last items.
Proof.
  intros Hne (units & Hunits & Hsh)%fix_param_loop_Ok.
  assert (Forall is_param units) as Hpar.
  { eapply Forall_impl; [done|]. apply made_by_atom. }
  assert (Forall flat_item units) as Hflat.
  { eapply Forall_impl; [exact Hpar|]. by intros []. }
  assert (Forall not_variadic units) as Hnv.
  { eapply Forall_impl; [exact Hpar|]. by intros []. }
  destruct Hsh as [[-> Hlen]|(n & u & -> & _)]; simpl.
  - split; [|split; [done|by apply variadic_last_all]].
    intros ->. by destruct tokens.
  - split; [by destruct (take n units)|]. split.
    + apply Forall_app. split; [by apply Forall_take|by repeat constructor].
    + apply variadic_last_snoc. by apply Forall_take.
Qed.

Lemma split_nonempty sep s : Str.split sep s ≠ [].
Proof.
  rewrite split_step. by destruct (if decide _ then _ else _) as [[]|].
Qed.

Lemma fix_param_str_Ok s u :
  _fix_param_str s = Ok u →
  is_param u ∨
  ∃ items, u = Group items ∧
           items ≠ [] ∧ Forall flat_item items ∧ variadic_last items.
Proof.
  unfold _fix_param_str. destruct (Str.contains "," s).
  - destruct (fix_param_loop _ _ _) as [items|] eqn:Hl; simpl; [|done].
    intros [= <-]. right. exists items. split; [done|].
    apply (inner_loop_Ok (Str.split "," s)); [apply split_nonempty|done].
  - intros Hu. left. apply made_by_atom. by exists s.
Qed.

Lemma rename_first_Ok prev u :
  rename_first prev = Ok u →
  ∃ n t items, prev = Group (Param n t :: items) ∧
               u = Group (Param (Str.drop_last 2 n) t :: items).
Proof. destruct prev as [| [|[]] |]; simpl; intros; simplify_eq. eauto. Qed.

Lemma variadic_last_rename n n' t t' items :
  variadic_last (Param n t :: items) → variadic_last (Param n' t' :: items).
Proof. intros H [|i] u; simpl; [done|]. apply (H (S i) u). Qed.

(** X7: in a shape that [_fix_param] returns a variadic tail is the last
    element and only that, and the same holds inside every group of the
    shape, also a group that the variadic tail wraps. *)
Theorem fix_param_variadic_last (tokens : list string) (sh : shape) :
  _fix_param tokens = Ok sh →
  variadic_last sh ∧ Forall groups_variadic_last sh.
Proof.
  unfold _fix_param. intros (units & Hunits & Hsh)%fix_param_loop_Ok.
  simpl in Hsh.
  assert (Forall (λ u, not_variadic u ∧ groups_variadic_last u) units) as Hok.
  { eapply Forall_impl; [done|]. intros u [s Hs].
    apply fix_param_str_Ok in Hs as [Hp|(items & -> & _ & _ & Hv)];
      [by destruct u|done]. }
  apply Forall_and in Hok as [Hnv Hg].
  destruct Hsh as [[-> _]|(n & u & -> & Hu)].
  - split; [by apply variadic_last_all|done].
  - split; [apply variadic_last_snoc; by apply Forall_take|].
    apply Forall_app. split; [by apply Forall_take|]. apply Forall_singleton.
    destruct Hu as [Hin|[(prev & Hin & Hr)|[s Hs]]].
    + pose proof (proj1 (Forall_forall _ _) Hg u Hin) as Hgu.
      pose proof (proj1 (Forall_forall _ _) Hnv u Hin) as Hnu.
      by destruct u.
    + apply rename_first_Ok in Hr as (m & t & items & -> & ->).
      pose proof (proj1 (Forall_forall _ _) Hg _ Hin) as Hgu. simpl in *.
      by eapply variadic_last_rename.
    + apply fix_param_str_Ok in Hs as [Hp|(items & -> & _ & _ & Hv)];
        [by destruct u|done].
Qed.

Lemma fix_param_variadic_last_witness :
  variadic_last
    [Variadic (Group [Param "type" "string";
                      Variadic (Param "opt" "table")])] ∧
  Forall groups_variadic_last
    [Variadic (Group [Param "type" "string";
                      Variadic (Param "opt" "table")])].
Proof.
  apply (fix_param_variadic_last
           (Str.split ";"
              "<type 1>,<opt 1a>,<opt 1b>,...;<type 2>,<opt 2a>,<opt 2b>;...")).
  vm_compute. reflexivity.
Defined.

(** X8: every group of a shape that [_fix_param] returns, also a group that
    the variadic tail wraps, has at least one item and holds no group: groups
    do not nest. *)
Theorem fix_param_groups (tokens : list string) (sh : shape) :
  _fix_param tokens = Ok sh → Forall group_ok sh.
Proof.
  unfold _fix_param. intros (units & Hunits & Hsh)%fix_param_loop_Ok.
  simpl in Hsh.
  assert (∀ u, made_by _fix_param_str u → group_ok u ∧ not_variadic u) as Hmade.
  { intros u [s Hs].
    apply fix_param_str_Ok in Hs as [Hp|(items & -> & Hne & Hflat & _)];
      [by destruct u|done]. }
  assert (Forall group_ok units) as Hok.
  { eapply Forall_impl; [done|]. intros u Hu. by apply Hmade. }
  destruct Hsh as [[-> _]|(n & u & -> & Hu)]; [done|].
  apply Forall_app. split; [by apply Forall_take|]. apply Forall_singleton.
  destruct Hu as [Hin|[(prev & Hin & Hr)|Hu]].
  + pose proof (proj1 (Forall_forall _ _) Hunits u Hin) as Hu.
    destruct (Hmade u Hu) as [Hg Hnv]. by destruct u.
  + apply rename_first_Ok in Hr as (m & t & items & -> & ->).
    pose proof (proj1 (Forall_forall _ _) Hok _ Hin) as [_ Hflat]. simpl.
    split; [done|]. apply Forall_cons in Hflat as [_ Hflat]. by constructor.
  + destruct (Hmade u Hu) as [Hg Hnv]. by destruct u.
Qed.

Lemma fix_param_groups_witness :
  Forall group_ok
    [Group [Param "x" "number"; Param "y" "number"];
     Group [Variadic (Param "item" "string")]; Param "selected_idx" "number"].
Proof.
  apply (fix_param_groups ["<X>,<Y>"; "<item 1>,<item 2>, ..."; "<selected idx>"]).
  vm_compute. reflexivity.
Defined.

(** ** The errors of the grammar parser (X9) *)

Lemma fix_param_atom_Raise s e : fix_param_atom s = Raise e → e = AssertionError 41.
Proof.
  unfold fix_param_atom, _fix_param_name. case_bool_decide; simpl; [done|].
  by intros [= <-].
Qed.

Lemma assert_Raise line b e : assert_ line b = Raise e → e = AssertionError line.
Proof. destruct b; simpl; [done|]. by intros [= <-]. Qed.

Lemma workaround_applies_flat res x :
  flat_item x → workaround_applies res x = Ok false.
Proof. unfold workaround_applies. by destruct (last res), x. Qed.

Lemma inner_ellipsis_Raise res e :
  Forall flat_item res →
  fix_param_ellipsis fix_param_atom res = Raise e →
  e = AssertionError 41 ∨ e = AssertionError 56.
Proof.
  intros Hres. unfold fix_param_ellipsis.
  destruct (assert_ 56 _) eqn:Ha; simpl;
    [|intros [= <-]; right; by apply (assert_Raise _ _ _ Ha)].
  destruct (pop res) as [[r x]|] eqn:Hpop.
  2:{ clear Hres. destruct res as [|y res _] using rev_ind; [|by rewrite pop_snoc in Hpop].
      by rewrite bool_decide_eq_false_2 in Ha by naive_solver. }
  apply pop_Some in Hpop as ->.
  rewrite Forall_app, Forall_singleton in Hres. destruct Hres as [_ Hx].
  rewrite workaround_applies_flat by done. simpl.
  case_decide; [done|].
  destruct (fix_param_atom _) eqn:Hu; simpl; [done|].
  intros [= <-]. left. by apply (fix_param_atom_Raise _ _ Hu).
Qed.

Lemma fix_param_str_Raise s e :
  _fix_param_str s = Raise e → e = AssertionError 41 ∨ e = AssertionError 56.
Proof.
  unfold _fix_param_str. destruct (Str.contains "," s).
  - destruct (fix_param_loop _ _ _) as [|e'] eqn:Hl; simpl; [done|].
    intros [= <-].
    apply fix_param_loop_Raise in Hl as [[s' Hs']|(units & Hunits & He)].
    + left. by apply (fix_param_atom_Raise _ _ Hs').
    + simpl in He. apply (inner_ellipsis_Raise units); [|done].
      eapply Forall_impl; [done|]. intros u Hu%made_by_atom. by destruct u.
  - intros He. left. by apply (fix_param_atom_Raise _ _ He).
Qed.

Lemma first_name_endswith_flat suffix items b :
  items ≠ [] → Forall flat_item items →
  (first_name_endswith suffix items = Ok b →
     ∃ n t rest, items = Param n t :: rest) ∧
  ∀ e, first_name_endswith suffix items = Raise e → e = AttributeError.
Proof.
  intros Hne Hflat. destruct items as [|[n t|l|u] rest]; [done|..]; simpl.
  - split; [eauto|done].
  - by apply Forall_cons in Hflat as [[] _].
  - split; [done|]. by intros e [= <-].
Qed.

Lemma top_ellipsis_Raise res e :
  Forall unit_ok res →
  fix_param_ellipsis _fix_param_str res = Raise e → grammar_error e.
Proof.
  intros Hres. unfold fix_param_ellipsis, grammar_error.
  destruct (assert_ 56 _) eqn:Ha; simpl;
    [|intros [= <-]; right; left; by apply (assert_Raise _ _ _ Ha)].
  destruct (pop res) as [[r x]|] eqn:Hpop.
  2:{ clear Hres. destruct res as [|y res _] using rev_ind; [|by rewrite pop_snoc in Hpop].
      by rewrite bool_decide_eq_false_2 in Ha by naive_solver. }
  apply pop_Some in Hpop as ->.
  rewrite Forall_app, Forall_singleton in Hres. destruct Hres as [Hr Hx].
  destruct (workaround_applies r x) as [[]|e'] eqn:Hw; simpl.
  - (* the workaround applies: [r] ends in a group that starts with a name *)
    unfold workaround_applies in Hw.
    destruct r as [|prev r _] using rev_ind; [done|].
    rewrite last_snoc in Hw. rewrite pop_snoc.
    rewrite Forall_app, Forall_singleton in Hr. destruct Hr as [_ Hprev].
    destruct x as [| [|x0 items] |]; try done.
    destruct (first_name_endswith "2" (x0 :: items)) as [[]|]; simplify_eq/=.
    destruct prev as [| [|y0 items'] |]; try done.
    destruct Hprev as [Hne' Hflat'].
    destruct (first_name_endswith_flat "1" (y0 :: items') true Hne' Hflat')
      as [Hfirst _].
    destruct (Hfirst Hw) as (n & t & rest & [= -> ->]). simpl. done.
  - case_decide; [done|].
    destruct (_fix_param_str _) eqn:Hu; simpl; [done|].
    intros [= <-]. apply fix_param_str_Raise in Hu as [->| ->]; eauto.
  - intros [= <-]. right. right.
    unfold workaround_applies in Hw.
    destruct (last r) as [prev|] eqn:Hlast; [|done].
    destruct x as [| [|x0 items] |]; try done.
    destruct Hx as [Hne Hflat].
    destruct (first_name_endswith_flat "2" (x0 :: items) true Hne Hflat)
      as [_ Herr].
    destruct (first_name_endswith "2" (x0 :: items)) as [[]|e2] eqn:H2;
      simplify_eq/=; [|by apply Herr].
    destruct prev as [| [|y0 items'] |]; try done.
    apply last_Some in Hlast as [r' ->].
    rewrite Forall_app, Forall_singleton in Hr. destruct Hr as [_ [Hne' Hflat']].
    by apply (first_name_endswith_flat "1" (y0 :: items') true Hne' Hflat').
Qed.

(** X9: [_fix_param] raises nothing but the [AssertionError] of
    [_fix_param_name] (line 41), the [AssertionError] of [assert res]
    (line 56) and the [AttributeError] of the workaround's test on a group
    that starts with a variadic tail; it never raises an [IndexError] or a
    [ValueError]. *)
Theorem fix_param_errors (tokens : list string) (e : exn) :
  _fix_param tokens = Raise e → grammar_error e.
Proof.
  unfold _fix_param.
  intros [[s Hs]|(units & Hunits & He)]%fix_param_loop_Raise.
  - apply fix_param_str_Raise in Hs as [->| ->]; unfold grammar_error; eauto.
  - simpl in He. apply (top_ellipsis_Raise units); [|done].
    eapply Forall_impl; [done|]. intros u [s Hs].
    apply fix_param_str_Ok in Hs as [Hp|(items & -> & Hne & Hflat & _)];
      [by destruct u|done].
Qed.

Lemma fix_param_errors_witness :
  (_fix_param ["x,y"; "a1,a2,..."; "..."] = Raise AttributeError ∧
   _fix_param ["a"; "<...>"] = Raise (AssertionError 41) ∧
   _fix_param ["..."; "a"] = Raise (AssertionError 56)) ∧
  grammar_error AttributeError ∧ grammar_error (AssertionError 41) ∧
  grammar_error (AssertionError 56).
Proof.
  split; [repeat split; vm_compute; reflexivity|]. split; [|split].
  - apply (fix_param_errors ["x,y"; "a1,a2,..."; "..."]). vm_compute. reflexivity.
  - apply (fix_param_errors ["a"; "<...>"]). vm_compute. reflexivity.
  - apply (fix_param_errors ["..."; "a"]). vm_compute. reflexivity.
Defined.

(** ** The hooks (X10 to X15) *)

(** Induction on nodes, with the hypothesis for the items of a group. *)
Lemma node_ind_items (P : node → Prop) :
  (∀ n t, P (Param n t)) →
  (∀ l, Forall P l → P (Group l)) →
  (∀ u, P u → P (Variadic u)) →
  ∀ a, P a.
Proof.
  intros HP HG HV.
  fix rec 1. intros [n t|l|u].
  - apply HP.
  - apply HG. induction l as [|x l IH]; constructor; [apply rec|apply IH].
  - apply HV, rec.
Qed.

(** [node_eqb] decides equality. *)
Lemma node_eqb_eq a b : node_eqb a b = true ↔ a = b.
Proof.
  revert b. induction a as [n t|l IH|u IH] using node_ind_items; intros b.
  - destruct b as [n' t'| |]; simpl; try done.
    rewrite andb_true_iff, !bool_decide_eq_true.
    split; [by intros [-> ->]|by intros [= -> ->]].
  - destruct b as [|l'|]; simpl; try done.
    revert l'. induction IH as [|x l Hx _ IHl]; intros [|y l']; simpl; try done.
    rewrite andb_true_iff, Hx. split.
    + intros [-> Hl]. apply IHl in Hl. by injection Hl as ->.
    + intros [= -> ->]. split; [done|]. by apply IHl.
  - destruct b as [| |u']; simpl; try done. rewrite IH.
    split; [by intros ->|by intros [= ->]].
Qed.

Lemma node_eqb_refl a : node_eqb a a = true.
Proof. by apply node_eqb_eq. Qed.

Lemma setlast_snoc {A} (l : list A) x v : setlast (l ++ [x]) v = Ok (l ++ [v]).
Proof.
  unfold setlast. destruct (l ++ [x]) eqn:Heq; [by destruct l|].
  by rewrite <-Heq, removelast_last.
Qed.

Lemma getlast_snoc {A} (l : list A) x : getlast (l ++ [x]) = Ok x.
Proof. unfold getlast. by rewrite last_snoc. Qed.

Lemma append_to_last_run init param v yielded :
  append_to_last v (init ++ [Group param], yielded) =
  Ok ((), (init ++ [Group (param ++ [v])], yielded)).
Proof.
  unfold append_to_last, update_params. simpl.
  by rewrite last_snoc, setlast_snoc.
Qed.

Lemma yield_params_run params yielded :
  yield_params (params, yielded) = Ok ((), (params, yielded ++ [params])).
Proof. reflexivity. Qed.

(** X10: the hook of [background9] needs a shape that ends in
    [(middle, string)]: on the empty shape it raises [IndexError], on a shape
    with another last element the [AssertionError] of line 90.  Otherwise it
    yields three variants, which keep all elements but the last and end in the
    group of [middle_x], of [middle_x] and [middle_y], and of all four
    [middle_*] numbers; the copies taken at each [yield] differ although the
    hook yields the same list each time. *)
Theorem background9_hook_variants :
  run_hook _background9_hook [] = Raise IndexError ∧
  (∀ init x, x ≠ Param "middle" "string" →
     run_hook _background9_hook (init ++ [x]) = Raise (AssertionError 90)) ∧
  (∀ init,
     run_hook _background9_hook (init ++ [Param "middle" "string"]) =
     Ok ([init ++ [Group [Param "middle_x" "number"]];
          init ++ [Group [Param "middle_x" "number";
                          Param "middle_y" "number"]];
          init ++ [Group [Param "middle_x" "number";
                          Param "middle_y" "number";
                          Param "middle_x2" "number";
                          Param "middle_y2" "number"]]],
         init ++ [Group [Param "middle_x" "number";
                         Param "middle_y" "number";
                         Param "middle_x2" "number";
                         Param "middle_y2" "number"]])).
Proof.
  split; [reflexivity|].
  assert (∀ init x, run_hook _background9_hook (init ++ [x]) =
    match (_ ← gen_assert 90 (node_eqb x (Param "middle" "string"));
           _ ← update_params (λ params, setlast params (Group []));
           _ ← append_to_last (Param "middle_x" "number");
           _ ← yield_params;
           _ ← append_to_last (Param "middle_y" "number");
           _ ← yield_params;
           _ ← append_to_last (Param "middle_x2" "number");
           _ ← append_to_last (Param "middle_y2" "number");
           yield_params) (init ++ [x], []) with
    | Ok (_, (params, yielded)) => Ok (yielded, params)
    | Raise e => Raise e
    end) as Hrun.
  { intros init x. unfold run_hook, _background9_hook.
    unfold mbind at 1, gen_bind at 1, get_params at 1. cbn [fst].
    unfold mbind at 1, gen_bind at 1, lift at 1. by rewrite getlast_snoc. }
  split.
  - intros init x Hx. rewrite Hrun.
    unfold mbind at 1, gen_bind at 1, gen_assert, lift at 1.
    destruct (node_eqb x (Param "middle" "string")) eqn:Heq; [|done].
    by apply node_eqb_eq in Heq.
  - intros init. rewrite Hrun.
    unfold mbind at 1, gen_bind at 1, gen_assert, lift at 1.
    rewrite node_eqb_refl. cbn [assert_].
    unfold mbind at 1, gen_bind at 1, update_params at 1. cbn [fst snd].
    rewrite setlast_snoc.
    repeat (unfold mbind at 1, gen_bind at 1;
            rewrite ?append_to_last_run, ?yield_params_run; cbn [app]).
    by rewrite ?yield_params_run.
Qed.

Lemma assert_item_run line i v params yielded :
  params !! i = Some v →
  assert_item line i v (params, yielded) = Ok ((), (params, yielded)).
Proof.
  intros Hi. unfold assert_item, mbind, gen_bind, get_params, lift, getitem,
    gen_assert. simpl. rewrite Hi. by rewrite node_eqb_refl.
Qed.

Lemma assign_item_run i v params yielded :
  i < length params →
  assign_item i v (params, yielded) = Ok ((), (<[i:=v]> params, yielded)).
Proof.
  intros Hi. unfold assign_item, update_params, setitem. simpl.
  by rewrite decide_True.
Qed.

(** X11: on a shape whose items 4, 5 and 8 are the documented [textures],
    rotation pair and [frame_loop_range], the hook of [model] rewrites these
    three items and yields every prefix of the rewritten shape from length 5
    up to the full length, the shortest first: [len(params) - 4] variants.
    The element gets them longest first. *)
Theorem model_hook_variants (params : shape) :
  params !! 4 = Some (Param "textures" "string") →
  params !! 5 = Some (Group [Param "rotation_x" "string"; Param "y" "number"]) →
  params !! 8 = Some (Param "frame_loop_range" "string") →
  run_hook _model_hook params =
    Ok ((λ i, take i (model_rewrite params)) <$> seq 5 (length params - 4),
        model_rewrite params) ∧
  ∀ lines, element_shapes "model" params lines =
    Ok ((λ i, ("model", take i (model_rewrite params))) <$>
          reverse (seq 5 (length params - 4))).
Proof.
  intros H4 H5 H8.
  assert (8 < length params) as Hlen by by eapply lookup_lt_Some.
  assert (run_hook _model_hook params =
    Ok ((λ i, take i (model_rewrite params)) <$> seq 5 (length params - 4),
        model_rewrite params)) as Hrun.
  { unfold run_hook, _model_hook.
    unfold mbind at 1, gen_bind at 1. rewrite assert_item_run by done.
    unfold mbind at 1, gen_bind at 1. rewrite assign_item_run by lia.
    unfold mbind at 1, gen_bind at 1.
    rewrite assert_item_run by by rewrite list_lookup_insert_ne.
    unfold mbind at 1, gen_bind at 1.
    rewrite assign_item_run by (rewrite length_insert; lia).
    unfold mbind at 1, gen_bind at 1.
    rewrite assert_item_run by by rewrite !list_lookup_insert_ne.
    unfold mbind at 1, gen_bind at 1.
    rewrite assign_item_run by (rewrite !length_insert; lia).
    unfold mbind at 1, gen_bind at 1, get_params. cbn [fst].
    rewrite gen_for_yield. fold (model_rewrite params).
    replace (length (model_rewrite params) + 1 - 5) with (length params - 4)
      by (unfold model_rewrite; rewrite !length_insert; lia).
    done. }
  split; [done|]. intros lines.
  assert ("model" ∉ _passive_hooks) as Hex by decide_closed.
  assert (_hooks !! "model" = Some _model_hook) as Hh by reflexivity.
  rewrite (element_shapes_exclusive _ _ _ lines _ _ Hh Hex Hrun).
  by rewrite <-fmap_reverse, <-list_fmap_compose.
Qed.

Lemma model_hook_witness :
  run_hook _model_hook model_params =
    Ok ((λ i, take i (model_rewrite model_params)) <$> seq 5 (length model_params - 4),
        model_rewrite model_params) ∧
  ∀ lines, element_shapes "model" model_params lines =
    Ok ((λ i, ("model", take i (model_rewrite model_params))) <$>
          reverse (seq 5 (length model_params - 4))).
Proof. apply (model_hook_variants model_params); reflexivity. Defined.

(** An element with a passive hook gets the copies of what its hook
    yields, last first, and then the optional-suffix variants of [params] as
    the hook left it. *)
Lemma element_shapes_passive name h params lines yielded params' :
  _hooks !! name = Some h → name ∈ _passive_hooks →
  run_hook h params = Ok (yielded, params') →
  element_shapes name params lines =
  (optional_params ← optional_names ∅ lines;
   Ok (((λ p, (name, p)) <$> reverse yielded) ++
       ((λ p, (name, p)) <$> optional_variants optional_params params'))).
Proof.
  intros Hh Hp Hrun. unfold element_shapes. rewrite Hh. simpl.
  rewrite Hrun. simpl. rewrite bool_decide_eq_false_2; [done|]. by intros [].
Qed.

(** X12: for [dropdown] the hook replaces the second parameter and
    yields nothing, and the element gets the optional-suffix variants of the
    shape after the replacement: a second element that is a parameter becomes
    the group of [w] and [h], a second element that is a group (not empty)
    becomes the parameter [(w, number)]; a shape with fewer than two elements
    raises [IndexError]. *)
Theorem dropdown_shapes (params : shape) (lines : list string) :
  (∀ n t, params !! 1 = Some (Param n t) →
     element_shapes "dropdown" params lines =
     (optional_params ← optional_names ∅ lines;
      Ok ((λ p, ("dropdown", p)) <$>
            optional_variants optional_params
              (<[1:=Group [Param "w" "number"; Param "h" "number"]]> params)))) ∧
  (∀ x items, params !! 1 = Some (Group (x :: items)) →
     element_shapes "dropdown" params lines =
     (optional_params ← optional_names ∅ lines;
      Ok ((λ p, ("dropdown", p)) <$>
            optional_variants optional_params
              (<[1:=Param "w" "number"]> params)))) ∧
  (length params ≤ 1 → element_shapes "dropdown" params lines = Raise IndexError).
Proof.
  assert ("dropdown" ∈ _passive_hooks) as Hp by decide_closed.
  assert (_hooks !! "dropdown" = Some _scroll_container_hook) as Hh by reflexivity.
  split; [|split].
  - intros n t H1.
    assert (1 < length params) as Hlen by by eapply lookup_lt_Some.
    assert (run_hook _scroll_container_hook params =
      Ok ([], <[1:=Group [Param "w" "number"; Param "h" "number"]]> params))
      as Hrun.
    { unfold run_hook, _scroll_container_hook, mbind, gen_bind, get_params.
      cbn [fst]. rewrite H1. by rewrite assign_item_run. }
    by rewrite (element_shapes_passive _ _ _ lines _ _ Hh Hp Hrun).
  - intros x items H1.
    assert (1 < length params) as Hlen by by eapply lookup_lt_Some.
    assert (run_hook _scroll_container_hook params =
      Ok ([], <[1:=Param "w" "number"]> params)) as Hrun.
    { unfold run_hook, _scroll_container_hook, mbind, gen_bind, get_params.
      cbn [fst]. rewrite H1. by rewrite assign_item_run. }
    by rewrite (element_shapes_passive _ _ _ lines _ _ Hh Hp Hrun).
  - intros Hlen.
    assert (run_hook _scroll_container_hook params = Raise IndexError) as Hrun.
    { unfold run_hook, _scroll_container_hook, mbind, gen_bind, get_params.
      cbn [fst]. by rewrite (lookup_ge_None_2 params 1) by lia. }
    unfold element_shapes. rewrite Hh. simpl. by rewrite Hrun.
Qed.

(** X13: [textlist] gets the first five parameters as a shape of their
    own when its shape has more than five, and in every case the
    optional-suffix variants of its unchanged shape after that. *)
Theorem textlist_shapes (params : shape) (lines : list string) :
  element_shapes "textlist" params lines =
  (optional_params ← optional_names ∅ lines;
   Ok ((if decide (5 < length params) then [("textlist", take 5 params)] else []) ++
       ((λ p, ("textlist", p)) <$> optional_variants optional_params params))).
Proof.
  assert ("textlist" ∈ _passive_hooks) as Hp by decide_closed.
  assert (_hooks !! "textlist" = Some _textlist_hook) as Hh by reflexivity.
  assert (run_hook _textlist_hook params =
    Ok (if decide (5 < length params) then [take 5 params] else [], params))
    as Hrun.
  { unfold run_hook, _textlist_hook, mbind, gen_bind, get_params. cbn [fst].
    by case_decide. }
  rewrite (element_shapes_passive _ _ _ lines _ _ Hh Hp Hrun).
  by case_decide.
Qed.

(** X14: for [style] and [style_type] the first element of the shape,
    whatever it is, is replaced: the element gets the shape that starts with
    the repeatable [selectors] group and then the shape that starts with the
    group of [name], and no optional-suffix variant; the empty shape raises
    [IndexError]. *)
Theorem style_hook_shapes (name : string) (x : node) (rest : shape)
    (lines : list string) :
  name = "style" ∨ name = "style_type" →
  element_shapes name (x :: rest) lines =
    Ok [(name, Group [Variadic (Param "selectors" "string")] :: rest);
        (name, Group [Param "name" "string"] :: rest)] ∧
  element_shapes name [] lines = Raise IndexError.
Proof. by intros [-> | ->]. Qed.

Lemma style_hook_shapes_witness :
  element_shapes "style_type" (Param "a" "string" :: []) [] =
    Ok [("style_type", Group [Variadic (Param "selectors" "string")] :: []);
        ("style_type", Group [Param "name" "string"] :: [])] ∧
  element_shapes "style_type" [] [] = Raise IndexError.
Proof. apply style_hook_shapes. right. reflexivity. Defined.

Lemma assert_item_fail line i v x params yielded :
  params !! i = Some x → x ≠ v →
  assert_item line i v (params, yielded) = Raise (AssertionError line).
Proof.
  intros Hi Hx. unfold assert_item, mbind, gen_bind, get_params, lift, getitem,
    gen_assert. simpl. rewrite Hi.
  destruct (node_eqb x v) eqn:Heq; [|done]. by apply node_eqb_eq in Heq.
Qed.

(** X15: the hook of [model] aborts the run when the documentation no
    longer has the shape it was written for: a shape with fewer than five
    elements raises [IndexError], and a fifth element other than
    [(textures, string)] raises the [AssertionError] of line 147. *)
Theorem model_hook_errors (params : shape) (lines : list string) :
  (length params ≤ 4 → element_shapes "model" params lines = Raise IndexError) ∧
  (∀ x, params !! 4 = Some x → x ≠ Param "textures" "string" →
        element_shapes "model" params lines = Raise (AssertionError 147)).
Proof.
  assert (_hooks !! "model" = Some _model_hook) as Hh by reflexivity.
  split.
  - intros Hlen.
    assert (run_hook _model_hook params = Raise IndexError) as Hrun.
    { unfold run_hook, _model_hook.
      unfold mbind at 1, gen_bind at 1.
      unfold assert_item at 1, mbind at 1, gen_bind at 1, get_params at 1.
      cbn [fst]. unfold mbind at 1, gen_bind at 1, lift at 1, getitem.
      by rewrite (lookup_ge_None_2 params 4) by lia. }
    unfold element_shapes. rewrite Hh. simpl. by rewrite Hrun.
  - intros x H4 Hx.
    assert (run_hook _model_hook params = Raise (AssertionError 147)) as Hrun.
    { unfold run_hook, _model_hook.
      unfold mbind at 1, gen_bind at 1.
      by rewrite (assert_item_fail _ _ _ x). }
    unfold element_shapes. rewrite Hh. simpl. by rewrite Hrun.
Qed.

(** ** The optional-suffix expander and the optional names (X16 to X18) *)

Lemma pop_while_snoc {A} (f : A → bool) l x :
  pop_while f (l ++ [x]) = if f x then pop_while f l else l ++ [x].
Proof.
  induction l as [|y l IH]; simpl; [by destruct (f x)|].
  rewrite IH. destruct (f x); [done|]. by destruct (l ++ [x]) eqn:Heq; [destruct l|].
Qed.

Lemma pop_while_length {A} (f : A → bool) l : length (pop_while f l) ≤ length l.
Proof.
  induction l as [|x l IH] using rev_ind; [done|].
  rewrite pop_while_snoc. destruct (f x); rewrite ?length_app; simpl; lia.
Qed.

(** X16: the shapes of the optional-suffix expander are the input with its
    last [k] elements removed, for [k] from 0 to the number of elements at
    the end of the input that are optional parameters; the last shape is the
    input without all of these. *)
Theorem optional_variants_closed_form (opt : gset string) (params : shape) :
  let kept := pop_while (is_optional opt) params in
  optional_variants opt params =
    (λ k, take (length params - k) params) <$>
      seq 0 (S (length params - length kept)) ∧
  last (optional_variants opt params) = Some kept.
Proof.
  induction params as [|x params IH] using rev_ind; [done|].
  cbn zeta in *. rewrite optional_variants_snoc, pop_while_snoc.
  destruct IH as [IH1 IH2].
  pose proof (pop_while_length (is_optional opt) params) as Hle.
  destruct (is_optional opt x).
  - rewrite length_app. cbn [length].
    replace (length params + 1 - length (pop_while (is_optional opt) params))
      with (S (length params - length (pop_while (is_optional opt) params)))
      by lia.
    split.
    + rewrite <-cons_seq, fmap_cons. f_equal.
      * symmetry. apply take_ge. rewrite length_app. simpl. lia.
      * rewrite IH1, <-fmap_S_seq, <-list_fmap_compose.
        apply list_fmap_ext. intros i k Hk. simpl.
        apply lookup_seq in Hk as [-> Hk].
        rewrite take_app_le by lia. f_equal. lia.
    + rewrite last_cons, IH2. done.
  - rewrite Nat.sub_diag. simpl. split; [|done].
    f_equal. symmetry. apply take_ge. lia.
Qed.

Lemma optional_names_skip opt lines :
  Forall (λ line, _param_re_match line = None ∨
                  Str.contains "optional" (Str.lower line) = false) lines →
  optional_names opt lines = Ok opt.
Proof.
  induction 1 as [|line lines [Hm|Hc] _ IH]; simpl; [done|..].
  - by rewrite Hm.
  - destruct (_param_re_match line) as [[g1 g2]|]; [|done]. by rewrite Hc.
Qed.

Lemma optional_variants_no_names params : optional_variants ∅ params = [params].
Proof.
  rewrite optional_variants_step. destruct (last params) as [[]|]; try done.
Qed.

(** X17: an element without a hook, none of whose description lines both
    matches [_param_re] and contains the word "optional", gets exactly one
    shape: the parsed one. *)
Theorem plain_element_shapes (name : string) (params : shape) (lines : list string) :
  _hooks !! name = None →
  Forall (λ line, _param_re_match line = None ∨
                  Str.contains "optional" (Str.lower line) = false) lines →
  element_shapes name params lines = Ok [(name, params)].
Proof.
  intros Hh Hlines. unfold element_shapes. rewrite Hh. simpl.
  rewrite optional_names_skip by done. simpl.
  by rewrite optional_variants_no_names.
Qed.

Lemma plain_element_shapes_witness :
  element_shapes "label" [Param "label" "string"] ["Some text"; "* `x`: the position"] =
  Ok [("label", [Param "label" "string"])].
Proof.
  apply plain_element_shapes; [reflexivity|].
  apply Forall_cons. split; [left; reflexivity|].
  apply Forall_cons. split; [right; reflexivity|]. constructor.
Defined.

(** X18: the set of optional names only grows, and a name is added to it
    only as the normalized first or second name of a line that matches
    [_param_re] and contains "optional" in any case; the only error of the
    scan is the [AssertionError] of [_fix_param_name] (line 41). *)
Theorem optional_names_result (opt : gset string) (lines : list string) :
  (∀ opt', optional_names opt lines = Ok opt' →
     opt ⊆ opt' ∧
     ∀ n, n ∈ opt' → n ∈ opt ∨
       ∃ line g1 g2,
         line ∈ lines ∧ _param_re_match line = Some (g1, g2) ∧
         Str.contains "optional" (Str.lower line) = true ∧
         (_fix_param_name g1 = Ok n ∨
          ∃ p2, g2 = Some p2 ∧ _fix_param_name p2 = Ok n)) ∧
  (∀ e, optional_names opt lines = Raise e → e = AssertionError 41).
Proof.
  revert opt. induction lines as [|line lines IH]; intros opt.
  { split; [|done]. intros opt' [= <-]. split; [done|]. by left. }
  assert (∀ opt0,
    (∀ opt', optional_names opt0 lines = Ok opt' →
       opt0 ⊆ opt' ∧
       ∀ n, n ∈ opt' → n ∈ opt0 ∨
         ∃ line0 g1 g2,
           line0 ∈ line :: lines ∧ _param_re_match line0 = Some (g1, g2) ∧
           Str.contains "optional" (Str.lower line0) = true ∧
           (_fix_param_name g1 = Ok n ∨
            ∃ p2, g2 = Some p2 ∧ _fix_param_name p2 = Ok n))) as IH'.
  { intros opt0 opt' Hopt'. destruct (proj1 (IH opt0) opt' Hopt') as [Hsub Hin].
    split; [done|]. intros n Hn. destruct (Hin n Hn) as [?|(l & g1 & g2 & Hl & ?)];
      [by left|]. right. exists l, g1, g2. split; [by right|done]. }
  assert (∀ s e, _fix_param_name s = Raise e → e = AssertionError 41) as Herr.
  { intros s e. unfold _fix_param_name. case_bool_decide; simpl; [done|].
    by intros [= <-]. }
  cbn [optional_names].
  destruct (_param_re_match line) as [[g1 g2]|] eqn:Hm;
    [|split; [apply IH'|apply IH]].
  destruct (Str.contains "optional" (Str.lower line)) eqn:Hc;
    [|split; [apply IH'|apply IH]].
  destruct (_fix_param_name g1) as [p1|e1] eqn:H1; simpl;
    [|split; [done|]; intros e [= <-]; by apply (Herr g1)].
  destruct g2 as [p2|].
  - destruct (_fix_param_name p2) as [q2|e2] eqn:H2; simpl;
      [|split; [done|]; intros e [= <-]; by apply (Herr p2)].
    split; [|apply IH]. intros opt' Hopt'.
    destruct (IH' _ _ Hopt') as [Hsub Hin].
    split; [intros n Hn; apply Hsub; set_unfold; tauto|].
    intros n Hn. destruct (Hin n Hn) as [Hn'|?]; [|by right].
    apply elem_of_union in Hn' as [Hn'|Hn'].
    + apply elem_of_singleton in Hn' as ->. right.
      exists line, g1, (Some p2). split; [by left|]. eauto 10.
    + apply elem_of_union in Hn' as [Hn'|Hn']; [|by left].
      apply elem_of_singleton in Hn' as ->. right.
      exists line, g1, (Some p2). split; [by left|]. eauto 10.
  - split; [|apply IH]. intros opt' Hopt'.
    destruct (IH' _ _ Hopt') as [Hsub Hin].
    split; [intros n Hn; apply Hsub; set_unfold; tauto|].
    intros n Hn. destruct (Hin n Hn) as [Hn'|?]; [|by right].
    apply elem_of_union in Hn' as [Hn'|Hn']; [|by left].
    apply elem_of_singleton in Hn' as ->. right.
    exists line, g1, None. split; [by left|]. eauto 10.
Qed.

(** ** The pattern of the description lines (X19, X20) *)

Lemma backticked_spec name rest :
  name ≠ "" → Str.mem "`" name = false →
  backticked (String "`" (name +:+ String "`" rest)) = Some (name, rest).
Proof.
  intros Hne Hmem. unfold backticked. cbn [Str.startswith Str.drop].
  rewrite decide_True by done.
  change (Str.partition "`" ?s) with (Str.partition (String "`" "") s).
  rewrite partition_char_first by done. by rewrite decide_False.
Qed.

Lemma backticked_Some s name rest :
  backticked s = Some (name, rest) →
  s = String "`" (name +:+ String "`" rest) ∧ name ≠ "" ∧ Str.mem "`" name = false.
Proof.
  unfold backticked. destruct s as [|c s]; [done|].
  cbn [Str.startswith Str.drop]. case_decide as Hc; [|done]. subst c.
  destruct (Str.partition "`" s) as [[a b]|] eqn:Hp; [|done].
  case_decide; [done|]. intros [= <- <-].
  split; [|split; [done|]].
  - f_equal. by apply partition_sound in Hp.
  - by apply (partition_char_before "`" s a b).
Qed.

(** X19: [_param_re] matches a line "* `g1`: ..." with the name [g1] and
    no second name, and a line "* `g1` and `g2`: ..." with both names; on a
    line "* `g1` and `g2`, ..." it still matches, through the space before
    "and", but with the first name only. *)
Theorem param_re_match_bullets (g1 g2 tail : string) :
  g1 ≠ "" → Str.mem "`" g1 = false →
  g2 ≠ "" → Str.mem "`" g2 = false →
  _param_re_match ("* `" +:+ g1 +:+ "`: " +:+ tail) = Some (g1, None) ∧
  _param_re_match ("* `" +:+ g1 +:+ "` and `" +:+ g2 +:+ "`: " +:+ tail) =
    Some (g1, Some g2) ∧
  _param_re_match ("* `" +:+ g1 +:+ "` and `" +:+ g2 +:+ "`, " +:+ tail) =
    Some (g1, None).
Proof.
  intros Hg1 Hm1 Hg2 Hm2.
  assert (∀ rest, _param_re_match ("* `" +:+ g1 +:+ String "`" rest) =
    let without := if colon_space rest then Some (g1, None) else None in
    if Str.startswith " and " rest then
      match backticked (Str.drop 5 rest) with
      | Some (g2, rest') =>
          if colon_space rest' then Some (g1, Some g2) else without
      | None => without
      end
    else without) as Hmatch.
  { intros rest. unfold _param_re_match.
    rewrite !append_cons, append_nil_l. cbn [Str.startswith Str.drop].
    rewrite !decide_True by done. by rewrite backticked_spec. }
  split; [|split].
  - change ("`: " +:+ tail) with (String "`" (": " +:+ tail)).
    by rewrite Hmatch.
  - change ("` and `" +:+ g2 +:+ "`: " +:+ tail)
      with (String "`" (" and " +:+ String "`" (g2 +:+ String "`" (": " +:+ tail)))).
    rewrite Hmatch. cbn zeta.
    rewrite !append_cons, append_nil_l. cbn [Str.startswith Str.drop].
    rewrite !decide_True by done. by rewrite backticked_spec.
  - change ("` and `" +:+ g2 +:+ "`, " +:+ tail)
      with (String "`" (" and " +:+ String "`" (g2 +:+ String "`" (", " +:+ tail)))).
    rewrite Hmatch. cbn zeta.
    rewrite !append_cons, append_nil_l. cbn [Str.startswith Str.drop].
    rewrite !decide_True by done. by rewrite backticked_spec.
Qed.

Lemma param_re_match_bullets_witness :
  _param_re_match ("* `" +:+ "a" +:+ "`: " +:+ "optional") = Some ("a", None) ∧
  _param_re_match ("* `" +:+ "a" +:+ "` and `" +:+ "b" +:+ "`: " +:+ "optional") =
    Some ("a", Some "b") ∧
  _param_re_match ("* `" +:+ "a" +:+ "` and `" +:+ "b" +:+ "`, " +:+ "optional") =
    Some ("a", None).
Proof. apply param_re_match_bullets; (discriminate || reflexivity). Defined.

(** X20: when [_param_re] matches a line, the line starts with "* `", the
    first name and a backtick; a name it returns is not empty and holds no
    backtick; with a second name the line goes on with " and `", that name, a
    backtick, and then a space or a colon and a space; without one, the first
    name's backtick is followed by a space or a colon and a space. *)
Theorem param_re_match_Some (line g1 : string) (g2 : option string) :
  _param_re_match line = Some (g1, g2) →
  g1 ≠ "" ∧ Str.mem "`" g1 = false ∧
  ∃ rest, line = "* `" +:+ g1 +:+ String "`" rest ∧
    match g2 with
    | Some n2 =>
        n2 ≠ "" ∧ Str.mem "`" n2 = false ∧
        ∃ rest', rest = " and `" +:+ n2 +:+ String "`" rest' ∧
                 colon_space rest' = true
    | None => colon_space rest = true
    end.
Proof.
  unfold _param_re_match.
  destruct (Str.startswith "* " line) eqn:Hs; [|done].
  apply startswith_sound in Hs. change (String.length "* ") with 2 in Hs.
  destruct (backticked (Str.drop 2 line)) as [[n rest]|] eqn:Hb; [|done].
  apply backticked_Some in Hb as (Hb & Hn & Hm). rewrite Hb in Hs.
  assert (line = "* `" +:+ n +:+ String "`" rest) as Hline by done.
  clear Hs Hb.
  assert ((if colon_space rest then Some (n, @None string) else None) =
            Some (g1, g2) →
          g1 ≠ "" ∧ Str.mem "`" g1 = false ∧
          ∃ rest0, line = "* `" +:+ g1 +:+ String "`" rest0 ∧
            match g2 with
            | Some n2 =>
                n2 ≠ "" ∧ Str.mem "`" n2 = false ∧
                ∃ rest', rest0 = " and `" +:+ n2 +:+ String "`" rest' ∧
                         colon_space rest' = true
            | None => colon_space rest0 = true
            end) as Hwithout.
  { destruct (colon_space rest) eqn:Hc; [|done]. intros [= <- <-]. eauto. }
  destruct (Str.startswith " and " rest) eqn:Hand; [|done].
  destruct (backticked (Str.drop 5 rest)) as [[n2 rest']|] eqn:Hb2; [|done].
  destruct (colon_space rest') eqn:Hc'; [|done].
  intros [= <- <-]. split; [done|]. split; [done|].
  exists rest. split; [done|].
  apply backticked_Some in Hb2 as (Hb2 & Hn2 & Hm2).
  split; [done|]. split; [done|]. exists rest'. split; [|done].
  apply startswith_sound in Hand. change (String.length " and ") with 5 in Hand.
  by rewrite Hb2 in Hand.
Qed.

Lemma param_re_match_Some_witness :
  "a" ≠ "" ∧ Str.mem "`" "a" = false ∧
  ∃ rest, "* `a` and `b`: optional" = "* `" +:+ "a" +:+ String "`" rest ∧
    "b" ≠ "" ∧ Str.mem "`" "b" = false ∧
    ∃ rest', rest = " and `" +:+ "b" +:+ String "`" rest' ∧
             colon_space rest' = true.
Proof.
  apply (param_re_match_Some "* `a` and `b`: optional" "a" (Some "b")).
  reflexivity.
Defined.

(** ** The heading of a record (X21, X22) *)

(** X21: a record whose first line is a backtick, a name without "[", a
    "[", a signature, any one character and a backtick is the element of that
    name with that signature: the character before the closing backtick is
    dropped without being looked at, and an empty signature is the empty
    shape. *)
Theorem element_record_heading
    (elem_data name sig : string) (a : ascii) (lines : list string) :
  Str.split nl elem_data =
    ("`" +:+ name +:+ "[" +:+ sig +:+ String a "`") :: lines →
  Str.mem "[" name = false →
  element_record elem_data =
    (params ← (if decide (sig ≠ "") then _fix_param (Str.split ";" sig)
               else Ok []);
     element_shapes name params lines).
Proof.
  intros Hsplit Hname. unfold element_record. rewrite Hsplit.
  assert (Str.startswith "`" ("`" +:+ name +:+ "[" +:+ sig +:+ String a "`")
          = true) as -> by apply startswith_append.
  assert (Str.endswith "`" ("`" +:+ name +:+ "[" +:+ sig +:+ String a "`")
          = true) as ->.
  { change (String a "`") with (String a "" +:+ "`").
    rewrite <-!append_assoc. apply endswith_append. }
  cbn [negb orb].
  assert (Str.slice 1 2 ("`" +:+ name +:+ "[" +:+ sig +:+ String a "`") =
          name +:+ "[" +:+ sig) as ->.
  { unfold Str.slice.
    change ("`" +:+ name +:+ "[" +:+ sig +:+ String a "`")
      with (String "`" (name +:+ "[" +:+ sig +:+ String a "`")).
    replace (String "`" (name +:+ "[" +:+ sig +:+ String a "`"))
      with ((String "`" (name +:+ "[" +:+ sig)) +:+ String a "`").
    2:{ rewrite append_cons. f_equal. by rewrite !append_assoc. }
    by rewrite (drop_last_append _ (String a "`")). }
  unfold Str.split1.
  change ("[" +:+ sig) with (String "[" sig).
  change (Str.partition "[" ?s) with (Str.partition (String "[" "") s).
  by rewrite partition_char_first.
Qed.

Lemma element_record_heading_witness :
  element_record ("`label[x,y;label)`" +:+ nl +:+ "text") =
    (params ← (if decide ("x,y;label" ≠ "") then _fix_param (Str.split ";" "x,y;label")
               else Ok []);
     element_shapes "label" params ["text"]).
Proof.
  apply (element_record_heading _ "label" "x,y;label" ")" ["text"]);
    vm_compute; reflexivity.
Defined.

(** X22: a record whose first line starts and ends with a backtick but has
    no "[" between its first and its last two characters is not skipped: it
    raises [ValueError] and so aborts the run. *)
Theorem element_record_no_bracket
    (elem_data raw_elem : string) (lines : list string) :
  Str.split nl elem_data = raw_elem :: lines →
  Str.startswith "`" raw_elem = true → Str.endswith "`" raw_elem = true →
  Str.mem "[" (Str.slice 1 2 raw_elem) = false →
  element_record elem_data = Raise ValueError.
Proof.
  intros Hsplit Hs He Hm. unfold element_record. rewrite Hsplit, Hs, He.
  cbn [negb orb]. unfold Str.split1.
  rewrite <-contains_char in Hm. unfold Str.contains in Hm.
  destruct (Str.partition "[" _) as [[]|]; [|done].
  apply bool_decide_eq_false in Hm. destruct Hm. eauto.
Qed.

Lemma element_record_no_bracket_witness :
  element_record ("`formspec_version`" +:+ nl +:+ "text") = Raise ValueError.
Proof.
  apply (element_record_no_bracket _ "`formspec_version`" ["text"]);
    vm_compute; reflexivity.
Defined.

(** ** The table that [parse] returns (X23, X24) *)

Lemma shapes_of_cons k k' v pairs :
  shapes_of k ((k', v) :: pairs) =
  if decide (k' = k) then v :: shapes_of k pairs else shapes_of k pairs.
Proof. unfold shapes_of. rewrite filter_cons. simpl. by case_decide. Qed.

Lemma collect_fold (res : gmap string (list shape)) pairs k :
  foldl (λ res '(k, v), <[k := default [] (res !! k) ++ [v]]> res) res pairs !! k =
  match shapes_of k pairs with
  | [] => res !! k
  | vs => Some (default [] (res !! k) ++ vs)
  end.
Proof.
  revert res. induction pairs as [|[k' v] pairs IH]; intros res; [done|].
  cbn [foldl]. rewrite IH, shapes_of_cons.
  destruct (decide (k' = k)) as [->|Hne].
  - rewrite lookup_insert_eq. simpl.
    destruct (shapes_of k pairs) as [|v' vs]; [done|].
    by rewrite <-app_assoc.
  - by rewrite lookup_insert_ne.
Qed.

Lemma collect_lookup pairs k :
  collect pairs !! k =
  match shapes_of k pairs with [] => None | vs => Some vs end.
Proof.
  unfold collect. rewrite collect_fold, lookup_empty. by destruct (shapes_of _ _).
Qed.

(** X23: the table that [parse] returns has a key exactly for the names
    that [_raw_parse] yields, and maps a name to the sorted list of all the
    shapes yielded with it; no key has an empty list. *)
Theorem parse_table_lookup (data : string) (table : gmap string (list shape)) :
  parse data = Ok table →
  ∃ pairs, _raw_parse data = Ok pairs ∧
    ∀ k, table !! k =
         match shapes_of k pairs with
         | [] => None
         | vs => Some (sort_by_len vs)
         end.
Proof.
  unfold parse. destruct (_raw_parse data) as [pairs|]; simpl; [|done].
  intros [= <-]. exists pairs. split; [done|]. intros k.
  rewrite lookup_fmap, collect_lookup. by destruct (shapes_of _ _).
Qed.

Lemma parse_table_lookup_witness :
  ∃ pairs, _raw_parse label_document = Ok pairs ∧
    ∀ k, ({[ "label" := [[Group [Param "x" "number"; Param "y" "number"];
                           Param "label" "string"]] ]} : gmap string (list shape)) !! k =
         match shapes_of k pairs with
         | [] => None
         | vs => Some (sort_by_len vs)
         end.
Proof.
  apply (parse_table_lookup label_document). vm_compute. reflexivity.
Defined.

(** X24: every list of the table is not empty, lists the shapes by
    non-increasing length, is a rearrangement of the shapes yielded for its
    name, and keeps the shapes of each length in the order in which they were
    yielded. *)
Theorem parse_table_sorted (data : string) (table : gmap string (list shape))
    (k : string) (v : list shape) :
  parse data = Ok table → table !! k = Some v →
  v ≠ [] ∧ Sorted longer_or_equal v ∧
  ∃ pairs, _raw_parse data = Ok pairs ∧
    v ≡ₚ shapes_of k pairs ∧
    ∀ n, filter (λ s, length s = n) v =
         filter (λ s, length s = n) (shapes_of k pairs).
Proof.
  intros (pairs & Hraw & Hk)%parse_table_lookup Hv. rewrite Hk in Hv.
  destruct (shapes_of k pairs) as [|s vs] eqn:Hs; [done|].
  pose proof (sort_by_len_perm (s :: vs)) as Hperm.
  pose proof (sort_by_len_sorted (s :: vs)) as Hsorted.
  pose proof (λ n, sort_by_len_stable n (s :: vs)) as Hstable.
  set (w := sort_by_len (s :: vs)) in *. clearbody w.
  injection Hv as ->. split; [|split; [done|]].
  - intros ->. by apply Permutation_nil_cons in Hperm.
  - exists pairs. by rewrite Hs.
Qed.

Lemma parse_table_sorted_witness :
  [[Group [Param "x" "number"; Param "y" "number"]; Param "label" "string"]] ≠ [] ∧
  Sorted longer_or_equal
    [[Group [Param "x" "number"; Param "y" "number"]; Param "label" "string"]] ∧
  ∃ pairs, _raw_parse label_document = Ok pairs ∧
    [[Group [Param "x" "number"; Param "y" "number"]; Param "label" "string"]]
      ≡ₚ shapes_of "label" pairs ∧
    ∀ n, filter (λ s, length s = n)
           [[Group [Param "x" "number"; Param "y" "number"]; Param "label" "string"]] =
         filter (λ s, length s = n) (shapes_of "label" pairs).
Proof.
  apply (parse_table_sorted label_document
           {[ "label" := [[Group [Param "x" "number"; Param "y" "number"];
                           Param "label" "string"]] ]} "label");
    vm_compute; reflexivity.
Defined.
